(** * The property-synchronization engine of the Mi humidifier plugin

    A shallow embedding of [src/devices/humidifier.ts] (class
    [BaseHumidifier]): registration of the feature table on a HomeKit
    accessory, the poll cycle [update], the cached read path [getProp], the
    write path [setProp] and the history wrapper around read transforms.

    Conventions of the embedding.
    - Every method is a computation in the monad [M]: it reads and writes the
      engine state ([this.props], [this.cache], [this.historyServices], the
      accessory's service array), may complete abruptly with a JavaScript
      error, and emits the calls it makes on its collaborators (device
      protocol, accessory host, history log, logger, callbacks) as a list of
      [Event]s in program order.
    - [await] is sequencing: one call is followed from entry to exit; the
      interleaving of several calls is not part of the model.
    - JavaScript numbers are the integers plus [NaN]; fractional values are
      outside the model.  Thrown values are [Error] objects.  Read
      transforms ([get.map]) are total functions on values; the steps of a
      write ([beforeSet], [set.map], the device call, [afterSet]) may throw.
    - The accessory's arrays are changed in place by the host, and
      [forEach] reads them as they are in each round.
    - The history service is not part of the sources; it is modelled from
      the spec as one open entry per channel. *)

From Stdlib Require Import ZArith String Ascii DecimalString DecimalPos.
From stdpp Require Import base option list gmap strings.

Local Open Scope string_scope.
Local Open Scope list_scope.
Local Open Scope Z_scope.

(** ** JavaScript values *)

Module Js.

Inductive Value : Type :=
| Undefined
| Null
| Bool (b : bool)
| Num (n : Z)
| NaN
| Str (s : string).

#[global] Instance Value_eq_dec : EqDecision Value.
Proof. solve_decision. Defined.

(** [ToBoolean]: what [if (v)], [!v] and [v ? a : b] test. *)
Definition truthy (v : Value) : bool :=
  match v with
  | Undefined | Null | NaN => false
  | Bool b => b
  | Num n => negb (n =? 0)
  | Str s => negb (String.eqb s "")
  end.

(** [ToString] on primitives, as used by [" " + result.valueOf()]. *)
Definition toString (v : Value) : string :=
  match v with
  | Undefined => "undefined"
  | Null => "null"
  | Bool true => "true"
  | Bool false => "false"
  | Num n => NilZero.string_of_int (Z.to_int n)
  | NaN => "NaN"
  | Str s => s
  end.

Definition is_white (c : ascii) : bool :=
  let n := nat_of_ascii c in
  ((9 <=? n) && (n <=? 13))%nat || (n =? 32)%nat.

Fixpoint skip_white (s : string) : string :=
  match s with
  | String c s' => if is_white c then skip_white s' else s
  | EmptyString => s
  end.

Definition digit_of (radix : Z) (c : ascii) : option Z :=
  let n := Z.of_nat (nat_of_ascii c) in
  let d := if (48 <=? n) && (n <=? 57) then n - 48
           else if (97 <=? n) && (n <=? 122) then n - 87
           else if (65 <=? n) && (n <=? 90) then n - 55
           else radix in
  if d <? radix then Some d else None.

(** Longest prefix of digits in the radix; [None] when there is no digit. *)
Fixpoint digits (radix : Z) (s : string) (acc : option Z) : option Z :=
  match s with
  | String c s' =>
      match digit_of radix c with
      | Some d => digits radix s' (Some (radix * default 0 acc + d))
      | None => acc
      end
  | EmptyString => acc
  end.

(** [parseInt(s)] with no radix argument: leading white space, a sign, an
    optional [0x] prefix, then digits; [NaN] when no digit follows. *)
Definition parseInt (s : string) : Value :=
  let s1 := skip_white s in
  let '(sign, s2) :=
    match s1 with
    | String "-" r => (-1, r)
    | String "+" r => (1, r)
    | _ => (1, s1)
    end in
  let '(radix, s3) :=
    match s2 with
    | String "0" (String "x" r) | String "0" (String "X" r) => (16, r)
    | _ => (10, s2)
    end in
  match digits radix s3 None with
  | Some n => Num (sign * n)
  | None => NaN
  end.

(** [Math.round(ms / 1000)] on an integer number of milliseconds: the nearest
    integer, halves going up. *)
Definition round_seconds (ms : Z) : Z := (ms + 500) `div` 1000.

(** A thrown [Error]: [err.constructor.name], [err.message] and whether it is
    an instance of [miio.ProtocolError]. *)
Record Error : Type := mkError {
  err_name : string;
  err_message : string;
  err_protocol : bool
}.

#[global] Instance Error_eq_dec : EqDecision Error.
Proof. solve_decision. Defined.

(** How the evaluation of a call ends. *)
Inductive Completion (A : Type) : Type :=
| Normal (a : A)
| Throw (e : Error).

Arguments Normal {A} a.
Arguments Throw {A} e.

End Js.

(** ** The accessory host (homebridge / HAP objects)

    The engine sees the host through [PlatformAccessory] and the service and
    characteristic objects it hands out.  [accessory.services] is the
    accessory's own array of services and [service.characteristics] the
    service's own array: [addService] and [getCharacteristic] push to them,
    [removeService] and [removeCharacteristic] splice the element out, all in
    place.  A service is identified by its UUID and subtype, a
    characteristic, within its service, by its UUID; a characteristic object
    is referred to here by the id of the service holding it and its own
    UUID. *)

Definition CharHandle : Type := string * string.

(** A service constructor such as [Service.HumiditySensor]: its static UUID
    and the characteristics a new instance starts with. *)
Record ServiceClass : Type := mkServiceClass {
  sc_UUID : string;
  sc_characteristics : list string
}.

Record Service : Type := mkService {
  s_UUID : string;
  s_subtype : option string;
  s_displayName : string;
  s_characteristics : list string
}.

(** [service.getServiceId()]: [this.UUID + (this.subtype || "")]. *)
Definition getServiceId (s : Service) : string :=
  s_UUID s +:+ default "" (s_subtype s).

Definition CharacteristicProps : Type := list (string * Js.Value).

(** ** The device protocol *)

Abbreviation PropsType := (gmap string Js.Value).

Record Protocol : Type := mkProtocol {
  protocol_getProps : list string → Js.Completion PropsType;
  protocol_setProp : string → string → Js.Value → Js.Completion ()
}.

(** ** Feature table rows ([CharacteristicConfig]) *)

Record BeforeSetFuncArgs : Type := mkBeforeSetFuncArgs {
  bs_value : Js.Value;
  bs_characteristic : CharHandle;
  bs_protocol : Protocol
}.

Record AfterSetFuncArgs : Type := mkAfterSetFuncArgs {
  as_value : Js.Value;
  as_mappedValue : Js.Value;
  as_characteristic : CharHandle;
  as_protocol : Protocol
}.

Definition BeforeSetFunc : Type := BeforeSetFuncArgs → Js.Completion Js.Value.
Definition AfterSetFunc : Type := AfterSetFuncArgs → Js.Completion ().
Definition SetMapFunc : Type := Js.Value → Js.Completion Js.Value.

(** [config.set]. *)
Record SetConfig : Type := mkSetConfig {
  set_call : string;
  set_map : option SetMapFunc;
  set_beforeSet : option BeforeSetFunc;
  set_afterSet : option AfterSetFunc
}.

(** [config.value]: a get-callback (named, its body is the table's business)
    or a constant. *)
Inductive StaticValue : Type :=
| ValueFunction (name : string)
| ValueConstant (v : Js.Value).

(** ["value" in config] separates the two variants of the union. *)
Inductive ConfigVariant : Type :=
| Static (value : StaticValue)
| Dynamic (key : string) (get_map : option (Js.Value → Js.Value))
          (set : option SetConfig).

Record CharacteristicConfig : Type := mkConfig {
  cfg_service : ServiceClass;
  cfg_name : option (string * string);      (* displayName, subtype *)
  cfg_characteristic : string;              (* characteristic UUID *)
  cfg_props : option CharacteristicProps;
  cfg_variant : ConfigVariant;
  cfg_historyKey : option string;
  cfg_historyType : option string
}.

(** [feature.service.UUID + (feature.name ? feature.name.subtype : "")]. *)
Definition featureServiceId (feature : CharacteristicConfig) : string :=
  sc_UUID (cfg_service feature) +:+
  match cfg_name feature with Some (_, subtype) => subtype | None => "" end.

(** ** Engine data *)

(** The closure stored as [map] in a [GetEntry] value: the plain read
    transform, or the history wrapper built around it in [register]. *)
Inductive GetMapFunc : Type :=
| PlainMap (f : Js.Value → Js.Value)
| HistoryMap (oldMap : Js.Value → Js.Value) (historyType historyKey : string).

Record GetEntryValue : Type := mkGetEntryValue {
  gv_characteristic : CharHandle;
  gv_map : GetMapFunc
}.

Record GetEntry : Type := mkGetEntry {
  ge_key : string;
  ge_values : list GetEntryValue
}.

Record SetEntry : Type := mkSetEntry {
  se_key : string;
  se_characteristic : CharHandle;
  se_call : string;
  se_map : SetMapFunc;
  se_beforeSet : option BeforeSetFunc;
  se_afterSet : option AfterSetFunc
}.

(** The listeners [register] installs with [characteristic.on]. *)
Inductive GetListener : Type :=
| GetStatic (name : string)
| GetDynamic (key : string) (map : GetMapFunc).

Abbreviation HistoryServiceEntry := (gmap string Js.Value).

(** Modelled from the spec: [EveHistoryService] ([src/lib/eve-history.ts]) is
    not among the sources.  The spec gives the History Log one live record
    (the current open entry) per channel, read with [getLastEntry] (the
    entry, or absent) and written with [addEntry] (append or update). *)
Record EveHistoryService : Type := mkEveHistoryService {
  hs_type : string;
  hs_lastEntry : option HistoryServiceEntry
}.

Definition newEveHistoryService (type : string) : EveHistoryService :=
  mkEveHistoryService type None.

Definition getLastEntry (hs : EveHistoryService) : option HistoryServiceEntry :=
  hs_lastEntry hs.

Definition addEntry (entry : HistoryServiceEntry) (hs : EveHistoryService)
  : EveHistoryService :=
  mkEveHistoryService (hs_type hs) (Some entry).

(** ** Events: the calls the engine makes on its collaborators *)

Inductive LogLevel : Type := Debug | Warn | LogError.

Inductive LogMessage : Type :=
| MsgRemovingService (id : string)
| MsgRemovingCharacteristic (uuid : string)
| MsgHistoryTypes (types : list string)
| MsgUpdating (key : string) (propValue charValue : Js.Value)
| MsgFailGet (err : Js.Error)
| MsgInvalidToken
| MsgAddingHistory (type : string) (entry : HistoryServiceEntry)
| MsgNoHistory (type : string)
| MsgGetting (key : string)
| MsgSetting (key : string) (value : Js.Value)
| MsgFailSet (key : string) (err : Js.Error).

Inductive Event : Type :=
| EvGetProps (keys : list string)
| EvSetProp (key call : string) (value : Js.Value)
| EvAddService (id : string)
| EvRemoveService (id : string)
| EvAddCharacteristic (c : CharHandle)
| EvRemoveCharacteristic (c : CharHandle)
| EvSetProps (c : CharHandle) (props : CharacteristicProps)
| EvSetValue (c : CharHandle) (value : Js.Value)
| EvUpdateValue (c : CharHandle) (value : Js.Value)
| EvBeforeSet (value : Js.Value) (c : CharHandle)
| EvAfterSet (value mappedValue : Js.Value) (c : CharHandle)
| EvGetCallback (err : option Js.Error) (value : Js.Value)
| EvSetCallback (err : option Js.Error)
| EvNewHistoryService (type : string)
| EvGetLastEntry (type : string)
| EvAddEntry (type : string) (entry : HistoryServiceEntry)
| EvValueFunction (name : string)
| EvLog (level : LogLevel) (msg : LogMessage).

(** ** State and the monad of methods *)

(** The mutable members of the instance ([props], [cache],
    [historyServices]), the accessory it was configured on (its service
    array and the listeners put on its characteristics) and the number of
    clock readings taken so far. *)
Record State : Type := mkState {
  st_props : list GetEntry;
  st_cache : PropsType;
  st_historyServices : gmap string EveHistoryService;
  st_services : list Service;
  st_onGet : list (CharHandle * GetListener);
  st_onSet : list (CharHandle * SetEntry);
  st_clock : nat
}.

(** The read-only surroundings of the instance: the constructor's
    [protocol] and [features], and the wall clock, whose [n]-th reading
    ([new Date().valueOf()], in milliseconds) is [date n]. *)
Record BaseHumidifier : Type := mkBaseHumidifier {
  protocol : Protocol;
  features : list CharacteristicConfig;
  date : nat → Z
}.

(** The state the constructor leaves: [props = []], [cache = {}], no
    history service; the accessory is handed in later. *)
Definition constructed (services : list Service) : State :=
  mkState [] ∅ ∅ services [] [] 0.

Definition M (A : Type) : Type := State → Js.Completion A * State * list Event.

#[global] Instance M_ret : MRet M :=
  λ A a s, (Js.Normal a, s, []).

#[global] Instance M_bind : MBind M :=
  λ A B k m s,
    match m s with
    | (Js.Normal a, s', evs) =>
        let '(r, s'', evs') := k a s' in (r, s'', evs ++ evs')
    | (Js.Throw e, s', evs) => (Js.Throw e, s', evs)
    end.

Definition get : M State := λ s, (Js.Normal s, s, []).
Definition modify (f : State → State) : M () := λ s, (Js.Normal (), f s, []).
Definition emit (ev : Event) : M () := λ s, (Js.Normal (), s, [ev]).
Definition throw {A} (e : Js.Error) : M A := λ s, (Js.Throw e, s, []).

(** The completion of a call on a collaborator, taken into the method. *)
Definition await {A} (c : Js.Completion A) : M A := λ s, (c, s, []).

(** [try { body } catch (err) { handler(err) }]. *)
Definition try_catch {A} (body : M A) (handler : Js.Error → M A) : M A :=
  λ s,
    match body s with
    | (Js.Throw e, s', evs) =>
        let '(r, s'', evs') := handler e s' in (r, s'', evs ++ evs')
    | done => done
    end.

(** [xs.forEach(f)] over an array that [f] leaves alone. *)
Fixpoint forEach {A} (xs : list A) (f : A → M ()) : M () :=
  match xs with
  | [] => mret ()
  | x :: xs' => f x ;; forEach xs' f
  end.

Definition set_props (p : list GetEntry) (s : State) : State :=
  mkState p (st_cache s) (st_historyServices s) (st_services s)
          (st_onGet s) (st_onSet s) (st_clock s).
Definition set_cache (c : PropsType) (s : State) : State :=
  mkState (st_props s) c (st_historyServices s) (st_services s)
          (st_onGet s) (st_onSet s) (st_clock s).
Definition set_historyServices (h : gmap string EveHistoryService) (s : State)
  : State :=
  mkState (st_props s) (st_cache s) h (st_services s)
          (st_onGet s) (st_onSet s) (st_clock s).
Definition set_services (l : list Service) (s : State) : State :=
  mkState (st_props s) (st_cache s) (st_historyServices s) l
          (st_onGet s) (st_onSet s) (st_clock s).
Definition set_onGet (l : list (CharHandle * GetListener)) (s : State) : State :=
  mkState (st_props s) (st_cache s) (st_historyServices s) (st_services s)
          l (st_onSet s) (st_clock s).
Definition set_onSet (l : list (CharHandle * SetEntry)) (s : State) : State :=
  mkState (st_props s) (st_cache s) (st_historyServices s) (st_services s)
          (st_onGet s) l (st_clock s).
Definition set_clock (n : nat) (s : State) : State :=
  mkState (st_props s) (st_cache s) (st_historyServices s) (st_services s)
          (st_onGet s) (st_onSet s) n.

Definition emitAll (evs : list Event) : M () := λ s, (Js.Normal (), s, evs).

(** [new Date().valueOf()]. *)
Definition readClock (this : BaseHumidifier) : M Z :=
  s ← get;
  modify (set_clock (S (st_clock s)));;
  mret (date this (st_clock s)).

(** ** Host operations *)

Fixpoint findIndex {A} (p : A → bool) (l : list A) : option nat :=
  match l with
  | [] => None
  | x :: l' => if p x then Some 0%nat else S <$> findIndex p l'
  end.

(** [accessory.getService(name)] with a string: the first service whose
    display name or subtype is [name]. *)
Definition serviceNamed (name : string) (s : Service) : bool :=
  bool_decide (s_displayName s = name) || bool_decide (s_subtype s = Some name).

(** [accessory.getService(serviceClass)]: the first service of that UUID. *)
Definition serviceOfClass (cls : ServiceClass) (s : Service) : bool :=
  bool_decide (s_UUID s = sc_UUID cls).

(** A service object is referred to by its position in [accessory.services];
    registration only appends to the array, so positions are stable there. *)
Definition getService (p : Service → bool) : M (option nat) :=
  s ← get; mret (findIndex p (st_services s)).

Definition subtypeGiven (subtype : option string) : bool :=
  match subtype with Some t => negb (String.eqb t "") | None => false end.

(** The host refuses a second service of a UUID unless it carries a subtype
    of its own. *)
Definition serviceConflict (new existing : Service) : bool :=
  bool_decide (s_UUID existing = s_UUID new) &&
  (negb (subtypeGiven (s_subtype new)) ||
   bool_decide (s_subtype new = s_subtype existing)).

Definition duplicateService : Js.Error :=
  Js.mkError "Error" "Cannot add a Service with the same UUID" false.

(** [accessory.addService(serviceClass, displayName, subtype)]. *)
Definition addService (cls : ServiceClass) (displayName : string)
    (subtype : option string) : M nat :=
  s ← get;
  let service :=
    mkService (sc_UUID cls) subtype displayName (sc_characteristics cls) in
  if existsb (serviceConflict service) (st_services s)
  then throw duplicateService
  else
    modify (set_services (st_services s ++ [service]));;
    emit (EvAddService (getServiceId service));;
    mret (length (st_services s)).

Definition withCharacteristics (chars : list string) (s : Service) : Service :=
  mkService (s_UUID s) (s_subtype s) (s_displayName s) chars.

Definition noService : Js.Error :=
  Js.mkError "TypeError" "Cannot read properties of undefined" false.

(** [service.getCharacteristic(characteristicClass)]: the characteristic of
    that UUID, added to the service when it is not there yet. *)
Definition getCharacteristic (i : nat) (uuid : string) : M CharHandle :=
  s ← get;
  match st_services s !! i with
  | Some service =>
      let c := (getServiceId service, uuid) in
      (if bool_decide (uuid ∈ s_characteristics service) then mret ()
       else
         modify (set_services
                   (<[i := withCharacteristics
                             (s_characteristics service ++ [uuid]) service]>
                      (st_services s)));;
         emit (EvAddCharacteristic c));;
      mret c
  | None => throw noService
  end.

(** ** The history wrapper and the read transform *)

(** The value stored under the history key:
    [parseInt(" " + result.valueOf())]. *)
Definition historyValue (result : Js.Value) : Js.Value :=
  Js.parseInt (" " +:+ Js.toString result).

(** Calling the [map] of a [GetEntry] value (lines 179-221). *)
Definition callGetMap (this : BaseHumidifier) (map : GetMapFunc)
    (it : Js.Value) : M Js.Value :=
  match map with
  | PlainMap f => mret (f it)
  | HistoryMap oldMap historyType historyKey =>
      let result := oldMap it in
      if negb (Js.truthy result) then mret result
      else
        s ← get;
        match st_historyServices s !! historyType with
        | Some historyService =>
            emit (EvGetLastEntry historyType);;
            now ← readClock this;
            let time := Js.Num (Js.round_seconds now) in
            let entry :=
              match getLastEntry historyService with
              | None => {[ "time" := time ]}
              | Some entry => <[ "time" := time ]> entry
              end in
            let entry := <[ historyKey := historyValue result ]> entry in
            emit (EvLog Debug (MsgAddingHistory historyType entry));;
            emit (EvAddEntry historyType entry);;
            modify (set_historyServices
                      (<[ historyType := addEntry entry historyService ]>
                         (st_historyServices s)));;
            mret result
        | None =>
            emit (EvLog Debug (MsgNoHistory historyType));;
            mret result
        end
  end.

(** The [getMap] that [register] builds for a dynamic row. *)
Definition buildGetMap (config : CharacteristicConfig)
    (get_map : option (Js.Value → Js.Value)) : GetMapFunc :=
  let getMap := default (λ it, it) get_map in
  match cfg_historyKey config, cfg_historyType config with
  | Some historyKey, Some historyType => HistoryMap getMap historyType historyKey
  | _, _ => PlainMap getMap
  end.

(** ** [getProp] (lines 285-293) *)

Definition getProp (this : BaseHumidifier) (key : string) (map : GetMapFunc)
  : M () :=
  emit (EvLog Debug (MsgGetting key));;
  s ← get;
  let cached := default Js.Undefined (st_cache s !! key) in
  let value := if Js.truthy cached then cached else Js.Null in
  charValue ← callGetMap this map value;
  emit (EvGetCallback None charValue).

(** ** [setProp] (lines 305-345) *)

Definition setProp (this : BaseHumidifier) (entry : SetEntry)
    (value : Js.Value) : M () :=
  emit (EvLog Debug (MsgSetting (se_key entry) value));;
  try_catch
    (skipSet ←
       match se_beforeSet entry with
       | Some beforeSet =>
           emit (EvBeforeSet value (se_characteristic entry));;
           await (beforeSet (mkBeforeSetFuncArgs
                               value (se_characteristic entry) (protocol this)))
       | None => mret Js.Undefined
       end;
     mappedValue ← await (se_map entry value);
     (if bool_decide (skipSet = Js.Bool true) then mret ()
      else
        emit (EvSetProp (se_key entry) (se_call entry) mappedValue);;
        await (protocol_setProp (protocol this)
                 (se_key entry) (se_call entry) mappedValue));;
     match se_afterSet entry with
     | Some afterSet =>
         emit (EvAfterSet value mappedValue (se_characteristic entry));;
         await (afterSet (mkAfterSetFuncArgs
                            value mappedValue (se_characteristic entry)
                            (protocol this)))
     | None => mret ()
     end;;
     emit (EvSetCallback None))
    (λ err,
       emit (EvLog LogError (MsgFailSet (se_key entry) err));;
       emit (EvSetCallback (Some err))).

(** ** [update] (lines 112-138) *)

Definition update (this : BaseHumidifier) : M () :=
  try_catch
    (s ← get;
     let keys := map ge_key (st_props s) in
     emit (EvGetProps keys);;
     fetched ← await (protocol_getProps (protocol this) keys);
     modify (set_cache fetched);;
     forEach (st_props s) (λ prop,
       s ← get;
       let propValue := default Js.Undefined (st_cache s !! ge_key prop) in
       forEach (ge_values prop) (λ value,
         charValue ← callGetMap this (gv_map value) propValue;
         emit (EvLog Debug (MsgUpdating (ge_key prop) propValue charValue));;
         emit (EvUpdateValue (gv_characteristic value) charValue))))
    (λ err,
       emit (EvLog LogError (MsgFailGet err));;
       if Js.err_protocol err then emit (EvLog Warn MsgInvalidToken)
       else mret ()).

(** ** [register] (lines 143-271) *)

(** Lines 223-242: add the characteristic to the entry of its key, or open a
    new entry at the end. *)
Fixpoint saveProp (key : string) (value : GetEntryValue) (props : list GetEntry)
  : list GetEntry :=
  match props with
  | [] => [mkGetEntry key [value]]
  | entry :: props' =>
      if bool_decide (ge_key entry = key)
      then mkGetEntry (ge_key entry) (ge_values entry ++ [value]) :: props'
      else entry :: saveProp key value props'
  end.

Definition register (this : BaseHumidifier) (config : CharacteristicConfig)
  : M () :=
  service ←
    match cfg_name config with
    | Some (displayName, subtype) =>
        found ← getService (serviceNamed displayName);
        match found with
        | Some i => mret i
        | None => addService (cfg_service config) displayName (Some subtype)
        end
    | None =>
        found ← getService (serviceOfClass (cfg_service config));
        match found with
        | Some i => mret i
        | None => addService (cfg_service config) "" None
        end
    end;
  characteristic ← getCharacteristic service (cfg_characteristic config);
  match cfg_props config with
  | Some props => emit (EvSetProps characteristic props)
  | None => mret ()
  end;;
  match cfg_variant config with
  | Static (ValueFunction name) =>
      modify (λ s, set_onGet (st_onGet s ++ [(characteristic, GetStatic name)]) s)
  | Static (ValueConstant value) =>
      emit (EvSetValue characteristic value)
  | Dynamic key get_map set =>
      let getMap := buildGetMap config get_map in
      modify (λ s, set_props
                     (saveProp key (mkGetEntryValue characteristic getMap)
                        (st_props s)) s);;
      modify (λ s, set_onGet
                     (st_onGet s ++ [(characteristic, GetDynamic key getMap)]) s);;
      match set with
      | Some set =>
          let setEntry :=
            mkSetEntry key characteristic (set_call set)
              (default (λ it, Js.Normal it) (set_map set))
              (set_beforeSet set) (set_afterSet set) in
          modify (λ s, set_onSet (st_onSet s ++ [(characteristic, setEntry)]) s)
      | None => mret ()
      end
  end.

(** What the host runs when it reads a characteristic: the listener put on
    it by [register]. *)
Definition onGet (this : BaseHumidifier) (listener : GetListener) : M () :=
  match listener with
  | GetStatic name => emit (EvValueFunction name)
  | GetDynamic key getMap => getProp this key getMap
  end.

(** ** [configureAccessory] (lines 49-103) *)

(** [service.characteristics.forEach] with [removeCharacteristic] in its
    body.  [forEach] fixes the number of rounds [n] at the start and in round
    [k] reads position [k] of the array as it is then; a removal splices the
    array, so what followed the removed element moves one position down. *)
Fixpoint cleanupCharacteristics (id : string) (enabled : list string)
    (n k : nat) (characteristics : list string) : list string * list Event :=
  match n with
  | O => (characteristics, [])
  | S n' =>
      match characteristics !! k with
      | Some uuid =>
          if bool_decide (uuid ∈ enabled)
          then cleanupCharacteristics id enabled n' (S k) characteristics
          else
            let '(rest, evs) :=
              cleanupCharacteristics id enabled n' (S k)
                (delete k characteristics) in
            (rest, EvLog Debug (MsgRemovingCharacteristic uuid)
                     :: EvRemoveCharacteristic (id, uuid) :: evs)
      | None => cleanupCharacteristics id enabled n' (S k) characteristics
      end
  end.

(** [accessory.services.forEach] (lines 62-84), same reading of [forEach].
    The service object of round [k] stays at position [k] unless this round
    removes it, in which case its characteristics are cleaned on the detached
    object. *)
Fixpoint cleanupServices (this : BaseHumidifier) (enabledServices : list string)
    (n k : nat) : M () :=
  match n with
  | O => mret ()
  | S n' =>
      s ← get;
      match st_services s !! k with
      | Some service =>
          let id := getServiceId service in
          let enabled := bool_decide (id ∈ enabledServices) in
          (if enabled then mret ()
           else
             emit (EvLog Debug (MsgRemovingService id));;
             emit (EvRemoveService id);;
             modify (set_services (delete k (st_services s))));;
          let enabledCharacteristics :=
            map cfg_characteristic
              (filter (λ it, featureServiceId it = id) (features this)) in
          let '(characteristics, evs) :=
            cleanupCharacteristics id enabledCharacteristics
              (length (s_characteristics service)) 0
              (s_characteristics service) in
          emitAll evs;;
          (if enabled
           then modify (λ s, set_services
                               (<[k := withCharacteristics characteristics service]>
                                  (st_services s)) s)
           else mret ());;
          cleanupServices this enabledServices n' (S k)
      | None => cleanupServices this enabledServices n' (S k)
      end
  end.

(** [Set.prototype.add]: insertion order, no duplicates. *)
Definition setAdd (set : list string) (x : string) : list string :=
  if bool_decide (x ∈ set) then set else set ++ [x].

Definition configureAccessory (this : BaseHumidifier) : M () :=
  forEach (features this) (register this);;
  let enabledServices := map featureServiceId (features this) in
  s ← get;
  cleanupServices this enabledServices (length (st_services s)) 0;;
  let historyTypes := foldl setAdd [] (omap cfg_historyType (features this)) in
  emit (EvLog Debug (MsgHistoryTypes historyTypes));;
  forEach historyTypes (λ type,
    emit (EvNewHistoryService type);;
    modify (λ s, set_historyServices
                   (<[ type := newEveHistoryService type ]>
                      (st_historyServices s)) s)).

(** ** Observations on runs *)

Definition result {A} (m : M A) (s : State) : Js.Completion A := (m s).1.1.
Definition final {A} (m : M A) (s : State) : State := (m s).1.2.
Definition events {A} (m : M A) (s : State) : list Event := (m s).2.

(** The device calls among a list of events. *)
Definition isDeviceCall (ev : Event) : bool :=
  match ev with
  | EvGetProps _ | EvSetProp _ _ _ => true
  | _ => false
  end.

Definition deviceCalls (evs : list Event) : list Event :=
  List.filter isDeviceCall evs.

Definition getPropsCalls (evs : list Event) : list (list string) :=
  omap (λ ev, match ev with EvGetProps keys => Some keys | _ => None end) evs.

Definition setPropCalls (evs : list Event)
  : list (string * string * Js.Value) :=
  omap (λ ev, match ev with
              | EvSetProp key call v => Some (key, call, v)
              | _ => None
              end) evs.

Definition afterSetCalls (evs : list Event)
  : list (Js.Value * Js.Value * CharHandle) :=
  omap (λ ev, match ev with
              | EvAfterSet v mapped c => Some (v, mapped, c)
              | _ => None
              end) evs.

(** The values pushed with [characteristic.updateValue]. *)
Definition pushes (evs : list Event) : list (CharHandle * Js.Value) :=
  omap (λ ev, match ev with EvUpdateValue c v => Some (c, v) | _ => None end)
       evs.

Definition getCallbacks (evs : list Event)
  : list (option Js.Error * Js.Value) :=
  omap (λ ev, match ev with EvGetCallback e v => Some (e, v) | _ => None end)
       evs.

Definition setCallbacks (evs : list Event) : list (option Js.Error) :=
  omap (λ ev, match ev with EvSetCallback e => Some e | _ => None end) evs.

(** The history-log calls among a list of events. *)
Definition isHistoryCall (ev : Event) : bool :=
  match ev with
  | EvGetLastEntry _ | EvAddEntry _ _ | EvNewHistoryService _ => true
  | _ => false
  end.

Definition historyCalls (evs : list Event) : list Event :=
  List.filter isHistoryCall evs.

(** The read transform of a binding: the table's [get.map] (or the
    identity), which the history wrapper calls first and whose result it
    returns. *)
Definition readTransform (map : GetMapFunc) : Js.Value → Js.Value :=
  match map with
  | PlainMap f => f
  | HistoryMap oldMap _ _ => oldMap
  end.

(** The property keys of the rows without ["value"]. *)
Definition dynamicKeys (table : list CharacteristicConfig) : list string :=
  omap (λ config, match cfg_variant config with
                  | Dynamic key _ _ => Some key
                  | Static _ => None
                  end) table.

(** What a poll pushes, written from the index: every value of every entry
    gets its read transform of the fetched value of the entry's key. *)
Definition expectedPushes (fetched : PropsType) (props : list GetEntry)
  : list (CharHandle * Js.Value) :=
  prop ← props;
  (λ value, (gv_characteristic value,
             readTransform (gv_map value)
               (default Js.Undefined (fetched !! ge_key prop))))
    <$> ge_values prop.

(** The outcome of the [beforeSet] step of a write; [undefined] when the
    entry has no hook. *)
Definition beforeSetOutcome (this : BaseHumidifier) (entry : SetEntry)
    (value : Js.Value) : Js.Completion Js.Value :=
  match se_beforeSet entry with
  | Some beforeSet =>
      beforeSet (mkBeforeSetFuncArgs value (se_characteristic entry)
                   (protocol this))
  | None => Js.Normal Js.Undefined
  end.

(** Events that stay between the engine, the history log and the logger. *)
Definition isInternal (ev : Event) : bool :=
  match ev with
  | EvGetLastEntry _ | EvAddEntry _ _ | EvLog _ _ => true
  | _ => false
  end.

(** The bindings of the index in the order a poll visits them: entry by
    entry, and within an entry value by value. *)
Definition bindings (props : list GetEntry) : list (string * GetEntryValue) :=
  prop ← props; (λ value, (ge_key prop, value)) <$> ge_values prop.

(** The body of the inner loop of [update] for one binding. *)
Definition pushValue (this : BaseHumidifier) (key : string)
    (propValue : Js.Value) (value : GetEntryValue) : M () :=
  charValue ← callGetMap this (gv_map value) propValue;
  emit (EvLog Debug (MsgUpdating key propValue charValue));;
  emit (EvUpdateValue (gv_characteristic value) charValue).

(** The two loops of [update] as one loop over [bindings]. *)
Definition pushAll (this : BaseHumidifier) (fetched : PropsType)
    (l : list (string * GetEntryValue)) : M () :=
  forEach l (λ binding,
    pushValue this binding.1 (default Js.Undefined (fetched !! binding.1))
      binding.2).

(** The value of a field of the open entry of a history channel, when the
    channel has a service, the service an entry and the entry that field. *)
Definition entryField (s : State) (type field : string) : option Js.Value :=
  historyService ← st_historyServices s !! type;
  entry ← getLastEntry historyService;
  entry !! field.

(** Whether a [map] records under the key [field] of the history channel
    [type]. *)
Definition recordsField (type field : string) (map : GetMapFunc) : bool :=
  match map with
  | HistoryMap _ historyType historyKey =>
      bool_decide (historyType = type) && bool_decide (historyKey = field)
  | PlainMap _ => false
  end.


(** ** A small installation used in the examples *)

Module Sample.

Definition Humidifier : ServiceClass :=
  mkServiceClass "HumidifierDehumidifier" [].
Definition TemperatureSensor : ServiceClass :=
  mkServiceClass "TemperatureSensor" ["CurrentTemperature"].
Definition HumiditySensor : ServiceClass :=
  mkServiceClass "HumiditySensor" ["CurrentRelativeHumidity"].
Definition Lightbulb : ServiceClass := mkServiceClass "Lightbulb" ["On"].

(** A device whose properties all read [value]; writes succeed. *)
Definition steady (value : Js.Value) : Protocol :=
  mkProtocol
    (λ keys, Js.Normal (list_to_map ((λ key, (key, value)) <$> keys)))
    (λ _ _ _, Js.Normal ()).

Definition timeout : Js.Error := Js.mkError "SocketError" "timeout" false.

(** A device that does not answer. *)
Definition unreachable : Protocol :=
  mkProtocol (λ _, Js.Throw timeout) (λ _ _ _, Js.Throw timeout).

Definition clock (n : nat) : Z := 1700000000123 + 40 * Z.of_nat n.

Definition dynamic (service : ServiceClass) (characteristic key : string)
  : CharacteristicConfig :=
  mkConfig service None characteristic None (Dynamic key None None) None None.

Definition active := dynamic Humidifier "Active" "power".
Definition temperature :=
  dynamic TemperatureSensor "CurrentTemperature" "temp".
Definition humidity :=
  dynamic HumiditySensor "CurrentRelativeHumidity" "humidity".
Definition led := dynamic Lightbulb "On" "led".

Definition boom : Js.Error := Js.mkError "Error" "hook failed" false.

(** A write entry whose [beforeSet] asks to skip the device call and whose
    [afterSet] throws. *)
Definition skippingEntry : SetEntry :=
  mkSetEntry "target_humidity" ("HumidifierDehumidifier", "TargetHumidity")
    "set_target_humidity" (λ it, Js.Normal it)
    (Some (λ _, Js.Normal (Js.Bool true)))
    (Some (λ _, Js.Throw boom)).

(** A plain write entry: no hooks, identity transform. *)
Definition plainEntry : SetEntry :=
  mkSetEntry "led" ("Lightbulb", "On") "set_led" (λ it, Js.Normal it)
    None None.

Definition AccessoryInformation : ServiceClass :=
  mkServiceClass "AccessoryInformation" ["Manufacturer"; "Model"].

(** A row with a constant value. *)
Definition manufacturer : CharacteristicConfig :=
  mkConfig AccessoryInformation None "Manufacturer" None
    (Static (ValueConstant (Js.Str "Xiaomi"))) None None.

(** Rows tagged for the history channel ["room"]. *)
Definition tagged (service : ServiceClass) (characteristic key : string)
    (historyKey : string) : CharacteristicConfig :=
  mkConfig service None characteristic None (Dynamic key None None)
    (Some historyKey) (Some "room").

Definition roomTemperature :=
  tagged TemperatureSensor "CurrentTemperature" "temp" "temp".
Definition roomHumidity :=
  tagged HumiditySensor "CurrentRelativeHumidity" "humidity" "humidity".


(** A device at 21 degrees and 55 percent. *)
Definition climate : Protocol :=
  mkProtocol
    (λ _, Js.Normal {[ "temp" := Js.Num 21; "humidity" := Js.Num 55 ]})
    (λ _ _ _, Js.Normal ()).

Definition engine (device : Protocol) (table : list CharacteristicConfig)
  : BaseHumidifier :=
  mkBaseHumidifier device table clock.

(** The state after [configureAccessory] on a new instance. *)
Definition configured (device : Protocol) (table : list CharacteristicConfig)
    (services : list Service) : State :=
  final (configureAccessory (engine device table)) (constructed services).

End Sample.

(** ** Cleanup, read structurally *)

(** What [service.characteristics.forEach] leaves of an array: an enabled
    characteristic is kept, a disabled one is removed, and the element that
    follows a removed one is kept without being looked at. *)
Fixpoint sweepCharacteristics (enabled : list string)
    (characteristics : list string) : list string :=
  match characteristics with
  | [] => []
  | uuid :: rest =>
      if bool_decide (uuid ∈ enabled)
      then uuid :: sweepCharacteristics enabled rest
      else
        match rest with
        | [] => []
        | next :: rest' => next :: sweepCharacteristics enabled rest'
        end
  end.

(** The characteristics the table enables on the service of an id. *)
Definition enabledCharacteristics (this : BaseHumidifier) (id : string)
  : list string :=
  map cfg_characteristic
    (filter (λ it, featureServiceId it = id) (features this)).

(** The same reading of [accessory.services.forEach]: an enabled service is
    kept with its characteristics swept, a disabled one is removed, and the
    service that follows a removed one is kept as it is. *)
Fixpoint sweepServices (this : BaseHumidifier) (enabledServices : list string)
    (services : list Service) : list Service :=
  match services with
  | [] => []
  | service :: rest =>
      if bool_decide (getServiceId service ∈ enabledServices)
      then withCharacteristics
             (sweepCharacteristics
                (enabledCharacteristics this (getServiceId service))
                (s_characteristics service)) service
           :: sweepServices this enabledServices rest
      else
        match rest with
        | [] => []
        | next :: rest' => next :: sweepServices this enabledServices rest'
        end
  end.

(** No disabled element directly after another disabled one. *)
Fixpoint noAdjacentDisabled {A} (enabled : A → bool) (l : list A) : bool :=
  match l with
  | [] => true
  | x :: rest =>
      (enabled x ||
       match rest with [] => true | next :: _ => enabled next end)
      && noAdjacentDisabled enabled rest
  end.

Definition serviceEnabled (enabledServices : list string) (service : Service)
  : bool :=
  bool_decide (getServiceId service ∈ enabledServices).

(** A service of the tree and one of the swept tree are the same service:
    same UUID, subtype and display name, and the second has kept every
    characteristic of the first that the table enables on it and received
    none. *)
Definition sweptFrom (this : BaseHumidifier) (service service' : Service)
  : Prop :=
  s_UUID service' = s_UUID service ∧
  s_subtype service' = s_subtype service ∧
  s_displayName service' = s_displayName service ∧
  (∀ uuid, uuid ∈ s_characteristics service' →
           uuid ∈ s_characteristics service) ∧
  (∀ uuid, uuid ∈ s_characteristics service →
           uuid ∈ enabledCharacteristics this (getServiceId service) →
           uuid ∈ s_characteristics service').


(** ** Kinds of events *)

(** What registration may ask of the host. *)
Definition isRegistrationEvent (ev : Event) : bool :=
  match ev with
  | EvAddService _ | EvAddCharacteristic _ | EvSetProps _ _ | EvSetValue _ _ =>
      true
  | _ => false
  end.

(** What cleanup may do: removals and their debug lines. *)
Definition isCleanupEvent (ev : Event) : bool :=
  match ev with
  | EvRemoveService _ | EvRemoveCharacteristic _
  | EvLog Debug (MsgRemovingService _)
  | EvLog Debug (MsgRemovingCharacteristic _) => true
  | _ => false
  end.

(** The history types handed to [new EveHistoryService], in call order. *)
Definition newHistoryServiceCalls (evs : list Event) : list string :=
  omap (λ ev, match ev with
              | EvNewHistoryService type => Some type
              | _ => None
              end) evs.

(** Error and warning lines of the log. *)
Definition seriousLogs (evs : list Event) : list Event :=
  List.filter (λ ev, match ev with
                     | EvLog Warn _ | EvLog LogError _ => true
                     | _ => false
                     end) evs.

(** What the push loop of a poll may emit. *)
Definition isPollEvent (ev : Event) : bool :=
  match ev with
  | EvGetLastEntry _ | EvAddEntry _ _ | EvLog Debug _ | EvUpdateValue _ _ =>
      true
  | _ => false
  end.

(** The value [getProp] hands to the [map]: the cached value of the key
    when there is one and it is truthy, [null] otherwise. *)
Definition servedValue (cache : PropsType) (key : string) : Js.Value :=
  match cache !! key with
  | Some cached => if Js.truthy cached then cached else Js.Null
  | None => Js.Null
  end.

(** Whether a binding records under the key [field] of the channel [type]
    in a poll that fetched [fetched]: it is tagged so and its read transform
    of the fetched value is truthy. *)
Definition recordsNow (type field : string) (fetched : PropsType)
    (binding : string * GetEntryValue) : bool :=
  recordsField type field (gv_map binding.2) &&
  Js.truthy (readTransform (gv_map binding.2)
               (default Js.Undefined (fetched !! binding.1))).

(** The outcome of the [afterSet] step of a write that got as far as a
    mapped value; normal when the entry has no hook. *)
Definition afterSetOutcome (this : BaseHumidifier) (entry : SetEntry)
    (value mappedValue : Js.Value) : Js.Completion () :=
  match se_afterSet entry with
  | Some afterSet =>
      afterSet (mkAfterSetFuncArgs value mappedValue (se_characteristic entry)
                  (protocol this))
  | None => Js.Normal ()
  end.

(** The number a string of decimal digits denotes, read from the left
    with [acc] for the digits already read. *)
Fixpoint decimalValue (d : Decimal.uint) (acc : Z) : Z :=
  match d with
  | Decimal.Nil => acc
  | Decimal.D0 l => decimalValue l (10 * acc)
  | Decimal.D1 l => decimalValue l (10 * acc + 1)
  | Decimal.D2 l => decimalValue l (10 * acc + 2)
  | Decimal.D3 l => decimalValue l (10 * acc + 3)
  | Decimal.D4 l => decimalValue l (10 * acc + 4)
  | Decimal.D5 l => decimalValue l (10 * acc + 5)
  | Decimal.D6 l => decimalValue l (10 * acc + 6)
  | Decimal.D7 l => decimalValue l (10 * acc + 7)
  | Decimal.D8 l => decimalValue l (10 * acc + 8)
  | Decimal.D9 l => decimalValue l (10 * acc + 9)
  end.

(** ** More rows and trees for the examples *)

Module Cases.

(** A light registered under a display name and subtype. *)
Definition named (displayName subtype key : string) : CharacteristicConfig :=
  mkConfig Sample.Lightbulb (Some (displayName, subtype)) "On" None
    (Dynamic key None None) None None.

Definition nightLight := named "Night light" "night" "led".

(** A second light claiming the subtype of the first under another name. *)
Definition clash := named "Reading light" "night" "led_b".

(** The accessory as a pass with all four sample features leaves it. *)
Definition fourServices : list Service :=
  [mkService "HumidifierDehumidifier" None "" ["Active"];
   mkService "TemperatureSensor" None "" ["CurrentTemperature"];
   mkService "HumiditySensor" None "" ["CurrentRelativeHumidity"];
   mkService "Lightbulb" None "" ["On"]].

(** A device that reports the temperature and nothing else. *)
Definition onlyTemperature : Protocol :=
  mkProtocol (λ _, Js.Normal {[ "temp" := Js.Num 21 ]})
    (λ _ _ _, Js.Normal ()).

(** A device whose humidity reads 0. *)
Definition dry : Protocol :=
  mkProtocol
    (λ _, Js.Normal {[ "temp" := Js.Num 21; "humidity" := Js.Num 0 ]})
    (λ _ _ _, Js.Normal ()).

Definition badToken : Js.Error :=
  Js.mkError "ProtocolError" "invalid checksum" true.

(** A device that rejects the token. *)
Definition refusing : Protocol :=
  mkProtocol (λ _, Js.Throw badToken) (λ _ _ _, Js.Throw badToken).

(** A write entry with both hooks, a transform to tenths and a
    [beforeSet] that returns a truthy value other than [true]. *)
Definition hookedEntry : SetEntry :=
  mkSetEntry "limit_hum" ("HumidifierDehumidifier", "TargetHumidity")
    "set_limit_hum"
    (λ it, match it with
           | Js.Num n => Js.Normal (Js.Num (n * 10))
           | _ => Js.Throw Sample.boom
           end)
    (Some (λ _, Js.Normal (Js.Num 1)))
    (Some (λ _, Js.Normal ())).

(** A writable row without transform or hooks. *)
Definition switch : CharacteristicConfig :=
  mkConfig Sample.Lightbulb None "On" None
    (Dynamic "led" None (Some (mkSetConfig "set_led" None None None)))
    None None.

End Cases.

(** * Properties *)

(** ** Integer reading of a recorded value *)

Example historyValue_number : historyValue (Js.Num 21) = Js.Num 21.
Proof. reflexivity. Qed.

Example historyValue_negative : historyValue (Js.Num (-7)) = Js.Num (-7).
Proof. reflexivity. Qed.

Example historyValue_boolean : historyValue (Js.Bool true) = Js.NaN.
Proof. reflexivity. Qed.

Example historyValue_text : historyValue (Js.Str "47 %") = Js.Num 47.
Proof. reflexivity. Qed.

Example historyValue_hex : historyValue (Js.Str "0x1f") = Js.Num 31.
Proof. reflexivity. Qed.

Example round_seconds_half_up :
  Js.round_seconds 1700000000499 = 1700000000 ∧
  Js.round_seconds 1700000000500 = 1700000001.
Proof. by split. Qed.

Section Monad.
Context {A B : Type}.

Lemma bind_normal (m : M A) (k : A → M B) s a s' evs :
  m s = (Js.Normal a, s', evs) →
  (m ≫= k) s = ((k a s').1.1, (k a s').1.2, evs ++ (k a s').2).
Proof.
  intros Hm. unfold mbind, M_bind. rewrite Hm.
  by destruct (k a s') as [[r s''] evs'].
Qed.

Lemma bind_throw (m : M A) (k : A → M B) s e s' evs :
  m s = (Js.Throw e, s', evs) → (m ≫= k) s = (Js.Throw e, s', evs).
Proof. intros Hm. unfold mbind, M_bind. by rewrite Hm. Qed.
End Monad.

Ltac run_m :=
  unfold mbind, M_bind, mret, M_ret, get, modify, emit, emitAll, await, throw,
    readClock; simpl.

Lemma internal_pushes evs : forallb isInternal evs = true → pushes evs = [].
Proof.
  induction evs as [|ev evs IH]; [done|]. simpl. intros [Hev Hevs]%andb_prop.
  unfold pushes in *. simpl. destruct ev; try discriminate Hev; by apply IH.
Qed.

Lemma internal_deviceCalls evs :
  forallb isInternal evs = true → deviceCalls evs = [].
Proof.
  induction evs as [|ev evs IH]; [done|]. simpl. intros [Hev Hevs]%andb_prop.
  unfold deviceCalls in *. simpl. destruct ev; try discriminate Hev; by apply IH.
Qed.

Lemma internal_getCallbacks evs :
  forallb isInternal evs = true → getCallbacks evs = [].
Proof.
  induction evs as [|ev evs IH]; [done|]. simpl. intros [Hev Hevs]%andb_prop.
  unfold getCallbacks in *. simpl. destruct ev; try discriminate Hev; by apply IH.
Qed.

Lemma internal_getPropsCalls evs :
  forallb isInternal evs = true → getPropsCalls evs = [].
Proof.
  induction evs as [|ev evs IH]; [done|]. simpl. intros [Hev Hevs]%andb_prop.
  unfold getPropsCalls in *. simpl. destruct ev; try discriminate Hev; by apply IH.
Qed.

(** Calling a [map] always returns the read transform of its argument; on
    the way it may touch the history services and the clock, nothing else. *)
Lemma callGetMap_returns this map it s :
  ∃ s' evs,
    callGetMap this map it s = (Js.Normal (readTransform map it), s', evs) ∧
    st_props s' = st_props s ∧ st_cache s' = st_cache s ∧
    st_services s' = st_services s ∧
    forallb isInternal evs = true.
Proof.
  destruct map as [f|oldMap historyType historyKey]; simpl.
  - by exists s, [].
  - destruct (Js.truthy (oldMap it)); simpl; [|by exists s, []].
    run_m. destruct (st_historyServices s !! historyType); simpl; eauto 10.
Qed.

(** ** The history wrapper *)

(** C9.  When the base read transform of a history-tagged binding gives a
    falsy result, the evaluation returns that result, leaves the whole state
    (history services included) as it was and makes no call at all: no entry
    is fetched, created or appended. *)
Theorem history_skipped_on_falsy
    (this : BaseHumidifier) (oldMap : Js.Value → Js.Value)
    (historyType historyKey : string) (it : Js.Value) (s : State) :
  Js.truthy (oldMap it) = false →
  callGetMap this (HistoryMap oldMap historyType historyKey) it s
  = (Js.Normal (oldMap it), s, []).
Proof. intros Hfalsy. unfold callGetMap. by rewrite Hfalsy. Qed.

Lemma history_skipped_on_falsy_witness :
  Js.truthy ((λ it : Js.Value, it) (Js.Num 0)) = false ∧
  callGetMap (mkBaseHumidifier
                (mkProtocol (λ _, Js.Normal ∅) (λ _ _ _, Js.Normal ()))
                [] (λ _, 0))
    (HistoryMap (λ it, it) "room" "humidity") (Js.Num 0)
    (set_historyServices {[ "room" := newEveHistoryService "room" ]}
       (constructed []))
  = (Js.Normal (Js.Num 0),
     set_historyServices {[ "room" := newEveHistoryService "room" ]}
       (constructed []),
     []).
Proof. split; [reflexivity | by apply history_skipped_on_falsy]. Defined.

(** ** Loops *)

Lemma forEach_app {A} (xs ys : list A) (f : A → M ()) s :
  forEach (xs ++ ys) f s = (forEach xs f ;; forEach ys f) s.
Proof.
  revert s. induction xs as [|x xs IH]; intros s; simpl.
  - run_m. by destruct (forEach ys f s) as [[[] ?] ?].
  - unfold mbind, M_bind. destruct (f x s) as [[[[]|e] s1] evs1]; [|done].
    rewrite IH. unfold mbind, M_bind.
    destruct (forEach xs f s1) as [[[[]|e] s2] evs2]; [|done].
    destruct (forEach ys f s2) as [[r s3] evs3]. by rewrite app_assoc.
Qed.

Lemma pushValue_run this key propValue value s :
  ∃ s' evs,
    callGetMap this (gv_map value) propValue s
    = (Js.Normal (readTransform (gv_map value) propValue), s', evs) ∧
    pushValue this key propValue value s
    = (Js.Normal (), s',
       evs ++ [EvLog Debug (MsgUpdating key propValue
                              (readTransform (gv_map value) propValue));
               EvUpdateValue (gv_characteristic value)
                 (readTransform (gv_map value) propValue)]) ∧
    st_props s' = st_props s ∧ st_cache s' = st_cache s ∧
    st_services s' = st_services s ∧ forallb isInternal evs = true.
Proof.
  destruct (callGetMap_returns this (gv_map value) propValue s)
    as (s' & evs & Hrun & ? & ? & ? & ?).
  exists s', evs. split_and!; try done.
  unfold pushValue. run_m. by rewrite Hrun.
Qed.

Lemma forEach_fmap {A B} (g : A → B) (xs : list A) (f : B → M ()) s :
  forEach (g <$> xs) f s = forEach xs (λ x, f (g x)) s.
Proof.
  revert s. induction xs as [|x xs IH]; intros s; simpl; [done|].
  unfold mbind, M_bind. destruct (f (g x) s) as [[[[]|e] s1] evs1]; [|done].
  by rewrite IH.
Qed.

Lemma get_bind {A} (k : State → M A) s : (get ≫= k) s = k s s.
Proof. unfold mbind, M_bind, get. by destruct (k s s) as [[? ?] ?]. Qed.

Lemma bindings_cons prop props :
  bindings (prop :: props)
  = ((λ value, (ge_key prop, value)) <$> ge_values prop) ++ bindings props.
Proof. done. Qed.

(** What the push loop does, binding by binding. *)
Lemma pushAll_run this fetched l s :
  ∃ s' evs,
    pushAll this fetched l s = (Js.Normal (), s', evs) ∧
    st_props s' = st_props s ∧ st_cache s' = st_cache s ∧
    st_services s' = st_services s ∧
    pushes evs
    = (λ binding, (gv_characteristic binding.2,
                   readTransform (gv_map binding.2)
                     (default Js.Undefined (fetched !! binding.1)))) <$> l ∧
    deviceCalls evs = [] ∧ getPropsCalls evs = [].
Proof.
  revert s. induction l as [|[key value] l IH]; intros s.
  - by exists s, [].
  - unfold pushAll. simpl.
    destruct (pushValue_run this key
                (default Js.Undefined (fetched !! key)) value s)
      as (s1 & evs1 & _ & Hrun & Hp & Hc & Hs & Hint).
    destruct (IH s1) as (s2 & evs2 & Hrest & Hp2 & Hc2 & Hs2 & Hpush & Hdev & Hget).
    eexists _, _. unfold mbind, M_bind. rewrite Hrun.
    unfold pushAll in Hrest. rewrite Hrest.
    split_and!; [done|congruence|congruence|congruence| | |].
    + unfold pushes in *. rewrite !omap_app. fold (pushes evs1).
      rewrite internal_pushes by done. simpl. by rewrite Hpush.
    + unfold deviceCalls in *. rewrite !List.filter_app. fold (deviceCalls evs1).
      rewrite internal_deviceCalls by done. simpl. by rewrite Hdev.
    + unfold getPropsCalls in *. rewrite !omap_app. fold (getPropsCalls evs1).
      rewrite internal_getPropsCalls by done. simpl. by rewrite Hget.
Qed.

(** The nested loops of [update] visit the bindings in the order of
    [bindings], each with the fetched value of its key. *)
Lemma update_loops_flat this fetched props s :
  st_cache s = fetched →
  forEach props (λ prop,
    s ← get;
    let propValue := default Js.Undefined (st_cache s !! ge_key prop) in
    forEach (ge_values prop) (λ value,
      charValue ← callGetMap this (gv_map value) propValue;
      emit (EvLog Debug (MsgUpdating (ge_key prop) propValue charValue));;
      emit (EvUpdateValue (gv_characteristic value) charValue))) s
  = pushAll this fetched (bindings props) s.
Proof.
  revert s. induction props as [|prop props IH]; intros s Hcache; [done|].
  rewrite bindings_cons. unfold pushAll. rewrite forEach_app.
  destruct (pushAll_run this fetched
              ((λ value, (ge_key prop, value)) <$> ge_values prop) s)
    as (s1 & evs1 & Hrun & _ & Hc & _).
  unfold pushAll in Hrun. rewrite (bind_normal _ _ _ _ _ _ Hrun).
  rewrite forEach_fmap in Hrun. simpl in Hrun.
  change (forEach (prop :: props) ?f) with (f prop ;; forEach props f).
  erewrite bind_normal; [|by rewrite get_bind, Hcache].
  by rewrite IH by congruence.
Qed.

(** ** The poll cycle *)

(** A poll whose fetch succeeds is the fetch, the new cache and the push
    loop; nothing is caught. *)
Lemma update_success_run this s fetched :
  protocol_getProps (protocol this) (map ge_key (st_props s))
  = Js.Normal fetched →
  ∃ s' evs,
    pushAll this fetched (bindings (st_props s)) (set_cache fetched s)
    = (Js.Normal (), s', evs) ∧
    update this s
    = (Js.Normal (), s', EvGetProps (map ge_key (st_props s)) :: evs).
Proof.
  intros Hfetch.
  destruct (pushAll_run this fetched (bindings (st_props s))
              (set_cache fetched s)) as (s' & evs & Hrun & _).
  exists s', evs. split; [done|].
  unfold update, try_catch. rewrite get_bind.
  erewrite bind_normal; [|reflexivity]. simpl.
  erewrite bind_normal; [|unfold await; by rewrite Hfetch]. simpl.
  erewrite bind_normal; [|reflexivity]. simpl.
  rewrite (update_loops_flat this fetched) by done. by rewrite Hrun.
Qed.

Lemma expectedPushes_bindings fetched props :
  expectedPushes fetched props
  = (λ binding, (gv_characteristic binding.2,
                 readTransform (gv_map binding.2)
                   (default Js.Undefined (fetched !! binding.1))))
      <$> bindings props.
Proof.
  induction props as [|prop props IH]; [done|].
  rewrite bindings_cons, fmap_app, <- IH, <- list_fmap_compose. done.
Qed.

(** C1.  When [getProps], called with the keys of the index, returns a
    mapping, [update] makes that mapping the cache, whatever the cache held
    before, and pushes to every characteristic of every entry the read
    transform of the new cached value of the entry's key; the pushes do not
    depend on the values pushed or cached earlier. *)
Theorem poll_replaces_cache_and_pushes
    (this : BaseHumidifier) (s : State) (fetched : PropsType) :
  protocol_getProps (protocol this) (map ge_key (st_props s))
  = Js.Normal fetched →
  result (update this) s = Js.Normal () ∧
  getPropsCalls (events (update this) s) = [map ge_key (st_props s)] ∧
  st_cache (final (update this) s) = fetched ∧
  st_props (final (update this) s) = st_props s ∧
  pushes (events (update this) s) = expectedPushes fetched (st_props s).
Proof.
  intros Hfetch.
  destruct (update_success_run this s fetched Hfetch)
    as (s' & evs & Hloop & Hrun).
  destruct (pushAll_run this fetched (bindings (st_props s))
              (set_cache fetched s))
    as (s1 & evs1 & Hloop' & Hp & Hc & _ & Hpush & _ & Hget).
  rewrite Hloop in Hloop'. injection Hloop' as <- <-.
  unfold result, final, events. rewrite Hrun. simpl.
  split_and!; [done| |done|done|].
  - unfold getPropsCalls in *. simpl. by rewrite Hget.
  - unfold pushes in *. simpl. by rewrite expectedPushes_bindings.
Qed.

Lemma poll_replaces_cache_and_pushes_witness :
  let table := [Sample.roomTemperature; Sample.roomHumidity] in
  let this := Sample.engine Sample.climate table in
  let s := Sample.configured Sample.climate table [] in
  protocol_getProps (protocol this) (map ge_key (st_props s))
  = Js.Normal {[ "temp" := Js.Num 21; "humidity" := Js.Num 55 ]} ∧
  result (update this) s = Js.Normal () ∧
  getPropsCalls (events (update this) s) = [["temp"; "humidity"]] ∧
  st_cache (final (update this) s)
  = {[ "temp" := Js.Num 21; "humidity" := Js.Num 55 ]} ∧
  st_props (final (update this) s) = st_props s ∧
  pushes (events (update this) s)
  = [(("TemperatureSensor", "CurrentTemperature"), Js.Num 21);
     (("HumiditySensor", "CurrentRelativeHumidity"), Js.Num 55)].
Proof.
  split; [reflexivity|].
  exact (poll_replaces_cache_and_pushes
           (Sample.engine Sample.climate
              [Sample.roomTemperature; Sample.roomHumidity])
           (Sample.configured Sample.climate
              [Sample.roomTemperature; Sample.roomHumidity] [])
           {[ "temp" := Js.Num 21; "humidity" := Js.Num 55 ]} eq_refl).
Defined.

(** A poll whose fetch throws is the fetch and the report of the error. *)
Lemma update_failure_run this s err :
  protocol_getProps (protocol this) (map ge_key (st_props s)) = Js.Throw err →
  update this s
  = (Js.Normal (), s,
     EvGetProps (map ge_key (st_props s))
       :: EvLog LogError (MsgFailGet err)
       :: (if Js.err_protocol err then [EvLog Warn MsgInvalidToken] else [])).
Proof.
  intros Hthrow. unfold update, try_catch. run_m. rewrite Hthrow. simpl.
  by destruct (Js.err_protocol err).
Qed.

(** C2.  When the device protocol's [getProps] throws, [update] returns
    normally, the state (the cache with it) is the one before the call and
    no characteristic value has been pushed. *)
Theorem update_failure_contained
    (this : BaseHumidifier) (s : State) (err : Js.Error) :
  protocol_getProps (protocol this) (map ge_key (st_props s)) = Js.Throw err →
  result (update this) s = Js.Normal () ∧
  final (update this) s = s ∧
  st_cache (final (update this) s) = st_cache s ∧
  pushes (events (update this) s) = [].
Proof.
  intros Hthrow. unfold result, final, events.
  rewrite (update_failure_run this s err Hthrow). simpl.
  by destruct (Js.err_protocol err).
Qed.

Lemma update_failure_contained_witness :
  let this := Sample.engine Sample.unreachable [Sample.active; Sample.led] in
  let s := Sample.configured Sample.unreachable [Sample.active; Sample.led] [] in
  protocol_getProps (protocol this) (map ge_key (st_props s))
  = Js.Throw Sample.timeout ∧
  result (update this) s = Js.Normal () ∧
  final (update this) s = s ∧
  st_cache (final (update this) s) = st_cache s ∧
  pushes (events (update this) s) = [].
Proof.
  split; [reflexivity|].
  by apply (update_failure_contained
              (Sample.engine Sample.unreachable [Sample.active; Sample.led])
              (Sample.configured Sample.unreachable
                 [Sample.active; Sample.led] [])
              Sample.timeout).
Defined.

(** ** The read path *)


(** C10.  Whenever the cached value of the key is falsy, the get responder
    answers with the read transform of [null], not of the cached value. *)
Theorem get_falsy_cached_is_null
    (this : BaseHumidifier) (key : string) (getMap : GetMapFunc) (s : State)
    (cached : Js.Value) :
  st_cache s !! key = Some cached →
  Js.truthy cached = false →
  getCallbacks (events (onGet this (GetDynamic key getMap)) s)
  = [(None, readTransform getMap Js.Null)].
Proof.
  intros Hcached Hfalsy. unfold events, onGet, getProp. run_m.
  rewrite Hcached. simpl. rewrite Hfalsy.
  destruct (callGetMap_returns this getMap Js.Null s)
    as (s' & evs & -> & _ & _ & _ & Hint).
  simpl. unfold getCallbacks. rewrite omap_app. simpl.
  fold (getCallbacks evs). by rewrite internal_getCallbacks.
Qed.

Lemma get_falsy_cached_is_null_witness :
  let this := Sample.engine (Sample.steady (Js.Num 0)) [Sample.active] in
  let s :=
    final (update this)
      (Sample.configured (Sample.steady (Js.Num 0)) [Sample.active] []) in
  let getMap := PlainMap (λ it, if Js.truthy it then Js.Num 1 else Js.Num 7) in
  st_cache s !! "power" = Some (Js.Num 0) ∧
  Js.truthy (Js.Num 0) = false ∧
  getCallbacks (events (onGet this (GetDynamic "power" getMap)) s)
  = [(None, Js.Num 7)].
Proof.
  split; [vm_compute; reflexivity|]. split; [reflexivity|].
  refine (get_falsy_cached_is_null
            (Sample.engine (Sample.steady (Js.Num 0)) [Sample.active])
            "power"
            (PlainMap (λ it, if Js.truthy it then Js.Num 1 else Js.Num 7))
            (final (update (Sample.engine (Sample.steady (Js.Num 0))
                              [Sample.active]))
               (Sample.configured (Sample.steady (Js.Num 0))
                  [Sample.active] []))
            (Js.Num 0) _ eq_refl).
  vm_compute. reflexivity.
Defined.

(** ** The write path *)

Ltac run_write :=
  unfold result, final, events, setProp, try_catch, beforeSetOutcome; run_m.

(** C4, as stated, fails: [beforeSet] returns [true] and the device call is
    skipped, the transform is computed and [afterSet] is called with it, but
    [afterSet] throws and the caller is told of a failure, not of success. *)
Lemma skipped_write_can_still_fail :
  let this := Sample.engine (Sample.steady (Js.Num 1)) [] in
  let entry := Sample.skippingEntry in
  let evs := events (setProp this entry (Js.Num 55)) (constructed []) in
  beforeSetOutcome this entry (Js.Num 55) = Js.Normal (Js.Bool true) ∧
  setPropCalls evs = [] ∧
  afterSetCalls evs = [(Js.Num 55, Js.Num 55, se_characteristic entry)] ∧
  setCallbacks evs = [Some Sample.boom] ∧
  setCallbacks evs ≠ [None].
Proof. by repeat split. Qed.

(** C4, amended.  When [beforeSet] is defined and returns [true], the
    device's [setProp] is not called for that write.  If the write transform
    returns a device value, [afterSet] (if defined) is called with that
    value, and the caller gets success exactly when [afterSet] is absent or
    returns normally; the error thrown by the transform or by [afterSet] is
    otherwise what the caller gets. *)
Theorem write_skipped_by_beforeSet
    (this : BaseHumidifier) (entry : SetEntry) (value : Js.Value) (s : State)
    (beforeSet : BeforeSetFunc) :
  se_beforeSet entry = Some beforeSet →
  beforeSet (mkBeforeSetFuncArgs value (se_characteristic entry)
               (protocol this)) = Js.Normal (Js.Bool true) →
  setPropCalls (events (setProp this entry value) s) = [] ∧
  match se_map entry value with
  | Js.Throw err =>
      afterSetCalls (events (setProp this entry value) s) = [] ∧
      setCallbacks (events (setProp this entry value) s) = [Some err]
  | Js.Normal deviceValue =>
      match se_afterSet entry with
      | None =>
          afterSetCalls (events (setProp this entry value) s) = [] ∧
          setCallbacks (events (setProp this entry value) s) = [None]
      | Some afterSet =>
          afterSetCalls (events (setProp this entry value) s)
          = [(value, deviceValue, se_characteristic entry)] ∧
          setCallbacks (events (setProp this entry value) s)
          = [match afterSet (mkAfterSetFuncArgs value deviceValue
                               (se_characteristic entry) (protocol this)) with
             | Js.Normal _ => None
             | Js.Throw err => Some err
             end]
      end
  end.
Proof.
  intros Hhook Hskip. run_write. rewrite Hhook. simpl. rewrite Hskip. simpl.
  destruct (se_map entry value) as [deviceValue|err]; simpl; [|done].
  destruct (se_afterSet entry) as [afterSet|]; simpl; [|done].
  by destruct (afterSet _).
Qed.

Lemma write_skipped_by_beforeSet_witness :
  let this := Sample.engine (Sample.steady (Js.Num 1)) [] in
  let entry := Sample.skippingEntry in
  let evs := events (setProp this entry (Js.Num 55)) (constructed []) in
  se_beforeSet entry = Some (λ _, Js.Normal (Js.Bool true)) ∧
  setPropCalls evs = [] ∧
  afterSetCalls evs = [(Js.Num 55, Js.Num 55, se_characteristic entry)] ∧
  setCallbacks evs = [Some Sample.boom].
Proof.
  split; [reflexivity|].
  exact (write_skipped_by_beforeSet
           (Sample.engine (Sample.steady (Js.Num 1)) [])
           Sample.skippingEntry (Js.Num 55) (constructed [])
           (λ _, Js.Normal (Js.Bool true)) eq_refl eq_refl).
Defined.

(** A write never lets an error out and never changes the state. *)
Lemma setProp_state this entry value s :
  ∃ evs, setProp this entry value s = (Js.Normal (), s, evs).
Proof.
  run_write. destruct (se_beforeSet entry) as [beforeSet|]; simpl.
  - destruct (beforeSet _) as [skipSet|err]; simpl; [|eauto].
    destruct (se_map entry value) as [mappedValue|err]; simpl; [|eauto].
    destruct (bool_decide (skipSet = Js.Bool true)); simpl;
      [|destruct (protocol_setProp _ _ _ _); simpl; [|eauto]];
      (destruct (se_afterSet entry) as [afterSet|]; simpl;
       [destruct (afterSet _); simpl; eauto|eauto]).
  - destruct (se_map entry value) as [mappedValue|err]; simpl; [|eauto].
    destruct (protocol_setProp _ _ _ _); simpl; [|eauto].
    destruct (se_afterSet entry) as [afterSet|]; simpl;
      [destruct (afterSet _); simpl; eauto|eauto].
Qed.

(** C5.  A write always returns normally and leaves the state, and so the
    cache, as it was, whether it succeeds or fails.  When one of the steps
    throws ([beforeSet], the write transform, the device's [setProp],
    [afterSet]), no later step runs and the caller gets that error. *)
Theorem write_failure_acknowledged
    (this : BaseHumidifier) (entry : SetEntry) (value : Js.Value) (s : State) :
  (result (setProp this entry value) s = Js.Normal () ∧
   final (setProp this entry value) s = s ∧
   st_cache (final (setProp this entry value) s) = st_cache s) ∧
  (∀ err,
     beforeSetOutcome this entry value = Js.Throw err →
     setPropCalls (events (setProp this entry value) s) = [] ∧
     afterSetCalls (events (setProp this entry value) s) = [] ∧
     setCallbacks (events (setProp this entry value) s) = [Some err]) ∧
  (∀ skipSet err,
     beforeSetOutcome this entry value = Js.Normal skipSet →
     se_map entry value = Js.Throw err →
     setPropCalls (events (setProp this entry value) s) = [] ∧
     afterSetCalls (events (setProp this entry value) s) = [] ∧
     setCallbacks (events (setProp this entry value) s) = [Some err]) ∧
  (∀ skipSet mappedValue err,
     beforeSetOutcome this entry value = Js.Normal skipSet →
     skipSet ≠ Js.Bool true →
     se_map entry value = Js.Normal mappedValue →
     protocol_setProp (protocol this) (se_key entry) (se_call entry) mappedValue
     = Js.Throw err →
     setPropCalls (events (setProp this entry value) s)
     = [(se_key entry, se_call entry, mappedValue)] ∧
     afterSetCalls (events (setProp this entry value) s) = [] ∧
     setCallbacks (events (setProp this entry value) s) = [Some err]) ∧
  (∀ skipSet mappedValue afterSet err,
     beforeSetOutcome this entry value = Js.Normal skipSet →
     se_map entry value = Js.Normal mappedValue →
     skipSet = Js.Bool true ∨
     protocol_setProp (protocol this) (se_key entry) (se_call entry) mappedValue
     = Js.Normal () →
     se_afterSet entry = Some afterSet →
     afterSet (mkAfterSetFuncArgs value mappedValue (se_characteristic entry)
                 (protocol this)) = Js.Throw err →
     afterSetCalls (events (setProp this entry value) s)
     = [(value, mappedValue, se_characteristic entry)] ∧
     setCallbacks (events (setProp this entry value) s) = [Some err]).
Proof.
  destruct (setProp_state this entry value s) as [evs Hrun].
  split; [unfold result, final; by rewrite Hrun|]. clear evs Hrun.
  split_and!.
  - intros err. run_write. destruct (se_beforeSet entry) as [b|]; simpl;
      [|done]. by intros ->.
  - intros skipSet err. run_write.
    destruct (se_beforeSet entry) as [b|]; simpl; intros Hb Hmap;
      [rewrite Hb|]; simpl; by rewrite Hmap.
  - intros skipSet mappedValue err. run_write.
    destruct (se_beforeSet entry) as [b|]; simpl; intros Hb Hskip Hmap Hdev.
    + rewrite Hb. simpl. rewrite Hmap. simpl.
      case_bool_decide; [done|]. simpl. by rewrite Hdev.
    + injection Hb as <-. rewrite Hmap. simpl. by rewrite Hdev.
  - intros skipSet mappedValue afterSet err. run_write.
    destruct (se_beforeSet entry) as [b|]; simpl;
      intros Hb Hmap Hdev Hafter Hthrow.
    + rewrite Hb. simpl. rewrite Hmap. simpl.
      case_bool_decide; simpl;
        [|destruct Hdev as [?|Hdev]; [done|rewrite Hdev; simpl]];
        rewrite Hafter; simpl; by rewrite Hthrow.
    + injection Hb as <-. rewrite Hmap. simpl.
      destruct Hdev as [?|Hdev]; [done|]. rewrite Hdev. simpl.
      rewrite Hafter. simpl. by rewrite Hthrow.
Qed.

Lemma write_failure_acknowledged_witness :
  let this := Sample.engine Sample.unreachable [] in
  let entry := Sample.plainEntry in
  let evs := events (setProp this entry (Js.Bool true)) (constructed []) in
  protocol_setProp (protocol this) (se_key entry) (se_call entry) (Js.Bool true)
  = Js.Throw Sample.timeout ∧
  setPropCalls evs = [("led", "set_led", Js.Bool true)] ∧
  afterSetCalls evs = [] ∧
  setCallbacks evs = [Some Sample.timeout].
Proof.
  split; [reflexivity|].
  refine (proj1 (proj2 (proj2 (proj2
            (write_failure_acknowledged (Sample.engine Sample.unreachable [])
               Sample.plainEntry (Js.Bool true) (constructed [])))))
            Js.Undefined (Js.Bool true) Sample.timeout eq_refl _ eq_refl eq_refl).
  discriminate.
Defined.

(** ** Registration and the property index *)

Lemma bind_inv_normal {A B} (m : M A) (k : A → M B) s b s2 evs :
  (m ≫= k) s = (Js.Normal b, s2, evs) →
  ∃ a s1 evs1 evs2,
    m s = (Js.Normal a, s1, evs1) ∧ k a s1 = (Js.Normal b, s2, evs2) ∧
    evs = evs1 ++ evs2.
Proof.
  unfold mbind, M_bind. destruct (m s) as [[[a|e] s1] evs1]; [|done].
  destruct (k a s1) as [[r s2'] evs2] eqn:Hk. intros [= -> -> <-]. eauto 10.
Qed.

Lemma saveProp_keys key value props k :
  k ∈ map ge_key (saveProp key value props) ↔ k = key ∨ k ∈ map ge_key props.
Proof.
  induction props as [|entry props IH]; simpl.
  - rewrite list_elem_of_singleton, elem_of_nil. tauto.
  - case_bool_decide as Hkey; simpl; rewrite !elem_of_cons.
    + rewrite Hkey. tauto.
    + rewrite IH. tauto.
Qed.

Lemma saveProp_NoDup key value props :
  NoDup (map ge_key props) → NoDup (map ge_key (saveProp key value props)).
Proof.
  induction props as [|entry props IH]; simpl.
  - intros _. apply NoDup_singleton.
  - rewrite NoDup_cons. intros [Hnotin Hnodup].
    case_bool_decide as Hkey; simpl; rewrite NoDup_cons; [done|].
    split; [|by apply IH]. rewrite saveProp_keys. intros [?|?]; congruence.
Qed.

(** The effect of one [register] on the index. *)
Lemma register_props this config s :
  match result (register this config) s with
  | Js.Normal _ =>
      match cfg_variant config with
      | Dynamic key get_map set =>
          ∃ characteristic,
            st_props (final (register this config) s)
            = saveProp key (mkGetEntryValue characteristic
                              (buildGetMap config get_map)) (st_props s)
      | Static _ => st_props (final (register this config) s) = st_props s
      end
  | Js.Throw _ => st_props (final (register this config) s) = st_props s
  end.
Proof.
  unfold result, final, register, getService, addService, getCharacteristic.
  run_m.
  repeat (case_match; simpl in *; simplify_eq; eauto).
Qed.

(** A dynamic row gets the get-responder that serves its key with the very
    [map] stored in the index. *)
Lemma register_installs_responder this config key get_map set s :
  cfg_variant config = Dynamic key get_map set →
  result (register this config) s = Js.Normal () →
  ∃ characteristic,
    st_onGet (final (register this config) s)
    = st_onGet s
      ++ [(characteristic, GetDynamic key (buildGetMap config get_map))] ∧
    st_props (final (register this config) s)
    = saveProp key (mkGetEntryValue characteristic
                      (buildGetMap config get_map)) (st_props s).
Proof.
  unfold result, final, register, getService, addService, getCharacteristic.
  intros ->. run_m.
  repeat (case_match; simpl in *; simplify_eq); intros; simplify_eq;
    by eexists.
Qed.

Lemma registerAll_keys this table s s' evs :
  forEach table (register this) s = (Js.Normal (), s', evs) →
  (∀ key, key ∈ map ge_key (st_props s')
          ↔ key ∈ map ge_key (st_props s) ∨ key ∈ dynamicKeys table) ∧
  (NoDup (map ge_key (st_props s)) → NoDup (map ge_key (st_props s'))).
Proof.
  revert s evs. induction table as [|config table IH]; intros s evs; simpl.
  - intros [= <- <-]. split; [|done]. intros key.
    unfold dynamicKeys. simpl. rewrite elem_of_nil. tauto.
  - intros (a & s1 & evs1 & evs2 & Hreg & Hrest & _)%bind_inv_normal.
    destruct (IH _ _ Hrest) as [Hkeys Hnodup].
    pose proof (register_props this config s) as Hprops.
    unfold result, final in Hprops. rewrite Hreg in Hprops. simpl in Hprops.
    unfold dynamicKeys in *. simpl.
    destruct (cfg_variant config) as [value|key0 get_map set]; simpl.
    + rewrite Hprops in *. done.
    + destruct Hprops as [characteristic Hprops]. rewrite Hprops in *.
      split.
      * intros key. rewrite Hkeys, saveProp_keys, elem_of_cons. tauto.
      * intros Hnd. by apply Hnodup, saveProp_NoDup.
Qed.

(** Cleanup only changes the accessory's services. *)
Lemma cleanupServices_run this enabledServices n k s :
  ∃ s' evs,
    cleanupServices this enabledServices n k s = (Js.Normal (), s', evs) ∧
    st_props s' = st_props s ∧ st_cache s' = st_cache s ∧
    st_historyServices s' = st_historyServices s.
Proof.
  revert k s. induction n as [|n IH]; intros k s; simpl.
  - by exists s, [].
  - rewrite get_bind. destruct (st_services s !! k) as [service|]; [|apply IH].
    destruct (cleanupCharacteristics _ _ _ _ _) as [characteristics evs0].
    destruct (bool_decide _); run_m.
    + destruct (IH (S k) (set_services
                   (<[k:=withCharacteristics characteristics service]>
                      (st_services s)) s))
        as (s' & evs & -> & ? & ? & ?).
      by eexists _, _.
    + destruct (IH (S k) (set_services (delete k (st_services s)) s))
        as (s' & evs & -> & ? & ? & ?).
      by eexists _, _.
Qed.

Lemma newHistoryServices_run types s :
  ∃ s' evs,
    forEach types (λ type,
      emit (EvNewHistoryService type);;
      modify (λ s, set_historyServices
                     (<[ type := newEveHistoryService type ]>
                        (st_historyServices s)) s)) s
    = (Js.Normal (), s', evs) ∧
    st_props s' = st_props s ∧ st_cache s' = st_cache s ∧
    st_services s' = st_services s ∧
    (∀ type, type ∈ types → is_Some (st_historyServices s' !! type)) ∧
    (∀ type, is_Some (st_historyServices s !! type) →
             is_Some (st_historyServices s' !! type)).
Proof.
  revert s. induction types as [|type types IH]; intros s; simpl.
  - exists s, []. split_and!; try done. intros ? ?%elem_of_nil. done.
  - destruct (IH (set_historyServices
                    (<[type:=newEveHistoryService type]> (st_historyServices s))
                    s))
      as (s' & evs & Hrun & ? & ? & ? & Hnew & Hold).
    erewrite bind_normal; [|reflexivity]. rewrite Hrun.
    eexists _, _. split_and!; try done.
    + intros type' [->|?]%elem_of_cons; [|by apply Hnew].
      apply Hold. simpl. by rewrite lookup_insert_eq.
    + intros type' Hsome. apply Hold. simpl.
      destruct (decide (type = type')) as [->|?];
        [by rewrite lookup_insert_eq|by rewrite lookup_insert_ne].
Qed.

Lemma setAdd_foldl types set type :
  type ∈ foldl setAdd set types ↔ type ∈ set ∨ type ∈ types.
Proof.
  revert set. induction types as [|x types IH]; intros set; simpl.
  - rewrite elem_of_nil. tauto.
  - rewrite IH, elem_of_cons. unfold setAdd. case_bool_decide.
    + split; [tauto|]. intros [?|[->|?]]; tauto.
    + rewrite elem_of_app, list_elem_of_singleton. tauto.
Qed.

(** A configuration pass that completes: the rows were registered one after
    the other, cleanup and the history set-up left the index and the cache
    alone, and every history type named in the table has its service. *)
Lemma configureAccessory_inv this s s' evs :
  configureAccessory this s = (Js.Normal (), s', evs) →
  ∃ s1 evs1,
    forEach (features this) (register this) s = (Js.Normal (), s1, evs1) ∧
    st_props s' = st_props s1 ∧ st_cache s' = st_cache s1 ∧
    (∀ config type,
       config ∈ features this → cfg_historyType config = Some type →
       is_Some (st_historyServices s' !! type)).
Proof.
  unfold configureAccessory.
  intros ([] & s1 & evs1 & evs2 & Hreg & Hrest & _)%bind_inv_normal.
  exists s1, evs1. split; [done|]. rewrite get_bind in Hrest.
  destruct (cleanupServices_run this (map featureServiceId (features this))
              (length (st_services s1)) 0 s1)
    as (s2 & evs3 & Hclean & Hp2 & Hc2 & _).
  rewrite (bind_normal _ _ _ _ _ _ Hclean) in Hrest.
  erewrite bind_normal in Hrest; [|reflexivity].
  destruct (newHistoryServices_run
              (foldl setAdd [] (omap cfg_historyType (features this))) s2)
    as (s3 & evs4 & Hhist & Hp3 & Hc3 & _ & Hnew & _).
  simpl in Hrest. rewrite Hhist in Hrest. simpl in Hrest.
  injection Hrest as <- _. split_and!; [congruence|congruence|].
  intros config type Hin Htype. apply Hnew, setAdd_foldl. right.
  apply list_elem_of_omap. eauto.
Qed.

(** Every poll asks the device for the keys of the index, once, and leaves
    the index as it is. *)
Lemma update_fetches this s :
  getPropsCalls (events (update this) s) = [map ge_key (st_props s)] ∧
  st_props (final (update this) s) = st_props s.
Proof.
  unfold events, final.
  destruct (protocol_getProps (protocol this) (map ge_key (st_props s)))
    as [fetched|err] eqn:Hfetch.
  - destruct (update_success_run this s fetched Hfetch)
      as (s' & evs & Hloop & ->).
    destruct (pushAll_run this fetched (bindings (st_props s))
                (set_cache fetched s))
      as (s1 & evs1 & Hloop' & Hp & _ & _ & _ & _ & Hget).
    rewrite Hloop in Hloop'. injection Hloop' as <- <-. simpl.
    split; [|done]. unfold getPropsCalls in *. simpl. by rewrite Hget.
  - rewrite (update_failure_run this s err Hfetch). simpl.
    by destruct (Js.err_protocol err).
Qed.

(** C6.  After a configuration pass on a newly constructed instance, the
    keys of the index are exactly the keys of the rows that have no
    ["value"] (no static value, no fixed get-callback), each once; and every
    poll on that index asks the device for exactly those keys. *)
Theorem index_is_dynamic_keys
    (this : BaseHumidifier) (services : list Service) (s' : State)
    (evs : list Event) :
  configureAccessory this (constructed services) = (Js.Normal (), s', evs) →
  (∀ key, key ∈ map ge_key (st_props s') ↔ key ∈ dynamicKeys (features this)) ∧
  NoDup (map ge_key (st_props s')) ∧
  (∀ s, st_props s = st_props s' →
        getPropsCalls (events (update this) s) = [map ge_key (st_props s')] ∧
        st_props (final (update this) s) = st_props s').
Proof.
  intros (s1 & evs1 & Hreg & Hprops & _)%configureAccessory_inv.
  destruct (registerAll_keys _ _ _ _ _ Hreg) as [Hkeys Hnodup].
  rewrite Hprops. split_and!.
  - intros key. rewrite Hkeys. simpl. rewrite elem_of_nil. tauto.
  - apply Hnodup. simpl. apply NoDup_nil_2.
  - intros s Hs. rewrite <- Hs. apply update_fetches.
Qed.

Lemma index_is_dynamic_keys_witness :
  let table :=
    [Sample.manufacturer; Sample.roomTemperature; Sample.active;
     Sample.roomHumidity] in
  let this := Sample.engine Sample.climate table in
  let s' := Sample.configured Sample.climate table [] in
  configureAccessory this (constructed [])
  = (Js.Normal (), s', events (configureAccessory this) (constructed [])) ∧
  map ge_key (st_props s') = ["temp"; "power"; "humidity"] ∧
  (∀ key, key ∈ map ge_key (st_props s') ↔ key ∈ dynamicKeys table) ∧
  NoDup (map ge_key (st_props s')) ∧
  (∀ s, st_props s = st_props s' →
        getPropsCalls (events (update this) s) = [map ge_key (st_props s')] ∧
        st_props (final (update this) s) = st_props s').
Proof.
  split; [vm_compute; reflexivity|]. split; [vm_compute; reflexivity|].
  refine (index_is_dynamic_keys
            (Sample.engine Sample.climate
               [Sample.manufacturer; Sample.roomTemperature; Sample.active;
                Sample.roomHumidity])
            []
            (Sample.configured Sample.climate
               [Sample.manufacturer; Sample.roomTemperature; Sample.active;
                Sample.roomHumidity] [])
            (events (configureAccessory
                       (Sample.engine Sample.climate
                          [Sample.manufacturer; Sample.roomTemperature;
                           Sample.active; Sample.roomHumidity]))
               (constructed []))
            _).
  vm_compute. reflexivity.
Defined.

(** ** Cleanup of disabled services *)

(** C7.  Where the pass falls short.  An accessory is configured with four
    features; the next table drops the two sensors and its pass removes
    only the first of them, because removing a service moves the next one
    into the position [forEach] has just left.  The third table drops the
    light, which was enabled until then: its pass removes the left-over
    sensor and, for the same reason, steps over the light.  The light's
    service and characteristic are still on the accessory when the pass is
    over; only the index is as it should be. *)
Theorem removed_feature_stays_on_accessory :
  let all := [Sample.active; Sample.temperature; Sample.humidity; Sample.led] in
  let sensorsOff := [Sample.active; Sample.led] in
  let ledOff := [Sample.active] in
  let first := Sample.configured Sample.climate all [] in
  let second := Sample.configured Sample.climate sensorsOff (st_services first) in
  let pass := configureAccessory (Sample.engine Sample.climate ledOff) in
  (getServiceId <$> st_services first)
  = ["HumidifierDehumidifier"; "TemperatureSensor"; "HumiditySensor";
     "Lightbulb"] ∧
  (getServiceId <$> st_services second)
  = ["HumidifierDehumidifier"; "HumiditySensor"; "Lightbulb"] ∧
  result pass (constructed (st_services second)) = Js.Normal () ∧
  st_services (final pass (constructed (st_services second)))
  = [mkService "HumidifierDehumidifier" None "" ["Active"];
     mkService "Lightbulb" None "" ["On"]] ∧
  ("Lightbulb" ∉ (featureServiceId <$> ledOff)) ∧
  map ge_key (st_props (final pass (constructed (st_services second))))
  = ["power"].
Proof.
  split_and!; try (vm_compute; reflexivity).
  simpl. by intros ?%list_elem_of_singleton.
Qed.

(** Where it works: a disabled service that no removal precedes is taken
    off the accessory, with its characteristic. *)
Example lone_disabled_service_removed :
  let tree := [mkService "HumidifierDehumidifier" None "" ["Active"];
               mkService "Lightbulb" None "" ["On"]] in
  st_services (Sample.configured Sample.climate [Sample.active] tree)
  = [mkService "HumidifierDehumidifier" None "" ["Active"]].
Proof. vm_compute. reflexivity. Qed.

(** ** History derivation *)


(** A [map] that does not record under a key leaves the value under that
    key as it is, the key ["time"] apart. *)
Lemma callGetMap_keeps_field this map it s type field :
  recordsField type field map = false →
  field ≠ "time" →
  entryField (final (callGetMap this map it) s) type field
  = entryField s type field.
Proof.
  unfold final, entryField.
  destruct map as [f|oldMap historyType historyKey]; simpl; [done|].
  intros Hother Htime. destruct (Js.truthy (oldMap it)); simpl; [|done]. run_m.
  destruct (st_historyServices s !! historyType) as [historyService|]
    eqn:Hlookup; simpl; [|done].
  destruct (decide (historyType = type)) as [->|?];
    [|by rewrite lookup_insert_ne].
  rewrite lookup_insert_eq, Hlookup. simpl.
  rewrite bool_decide_eq_true_2 in Hother by done.
  apply bool_decide_eq_false in Hother. rewrite lookup_insert_ne by done.
  destruct (getLastEntry historyService); simpl;
    [by rewrite lookup_insert_ne|by rewrite lookup_singleton_ne].
Qed.


(** A recording evaluation: the field gets the integer reading of the
    result, the entry's time the current clock reading in seconds, and the
    other fields of the open entry stay. *)
Lemma callGetMap_records this oldMap type field it s :
  Js.truthy (oldMap it) = true →
  is_Some (st_historyServices s !! type) →
  let s' := final (callGetMap this (HistoryMap oldMap type field) it) s in
  is_Some (st_historyServices s' !! type) ∧
  st_clock s' = S (st_clock s) ∧
  entryField s' type field = Some (historyValue (oldMap it)) ∧
  (field ≠ "time" →
   entryField s' type "time"
   = Some (Js.Num (Js.round_seconds (date this (st_clock s))))) ∧
  (∀ other, other ≠ field → other ≠ "time" →
            entryField s' type other = entryField s type other).
Proof.
  intros Htruthy [historyService Hservice]. unfold final, entryField. simpl.
  rewrite Htruthy. simpl. run_m. rewrite Hservice. simpl.
  rewrite lookup_insert_eq. simpl. split_and!; [done|done| | |].
  - by rewrite lookup_insert_eq.
  - intros Hfield. rewrite lookup_insert_ne by done.
    destruct (getLastEntry historyService);
      [by rewrite lookup_insert_eq|by rewrite lookup_singleton_eq].
  - intros other Hother Htime. rewrite lookup_insert_ne by done.
    destruct (getLastEntry historyService); simpl.
    + by rewrite lookup_insert_ne.
    + by rewrite lookup_singleton_ne.
Qed.

Lemma pushValue_final this key propValue value s :
  final (pushValue this key propValue value) s
  = final (callGetMap this (gv_map value) propValue) s.
Proof.
  destruct (pushValue_run this key propValue value s)
    as (s' & evs & Hmap & Hrun & _).
  unfold final. by rewrite Hmap, Hrun.
Qed.

Lemma pushAll_cons_final this fetched binding l s :
  final (pushAll this fetched (binding :: l)) s
  = final (pushAll this fetched l)
      (final (callGetMap this (gv_map binding.2)
                (default Js.Undefined (fetched !! binding.1))) s).
Proof.
  rewrite <- (pushValue_final this binding.1).
  destruct (pushValue_run this binding.1
              (default Js.Undefined (fetched !! binding.1)) binding.2 s)
    as (s' & evs & _ & Hrun & _).
  unfold final, pushAll. simpl.
  by rewrite (bind_normal _ _ _ _ _ _ Hrun), Hrun.
Qed.








(** * Further properties *)

(** ** The cleanup loops *)

Lemma cleanupCharacteristics_past_end id enabled n k characteristics :
  (length characteristics ≤ k)%nat →
  cleanupCharacteristics id enabled n k characteristics = (characteristics, []).
Proof.
  revert k. induction n as [|n IH]; intros k Hk; simpl; [done|].
  rewrite lookup_ge_None_2 by done. apply IH. lia.
Qed.

Lemma cleanupCharacteristics_sweep id enabled n pre rest :
  (length rest ≤ n)%nat →
  (cleanupCharacteristics id enabled n (length pre) (pre ++ rest)).1
  = pre ++ sweepCharacteristics enabled rest.
Proof.
  revert pre rest. induction n as [|n IH]; intros pre rest Hn.
  - destruct rest; [|simpl in Hn; lia]. done.
  - destruct rest as [|uuid rest]; simpl.
    + rewrite lookup_ge_None_2 by (rewrite length_app; simpl; lia).
      rewrite cleanupCharacteristics_past_end by (rewrite length_app; simpl; lia).
      done.
    + rewrite list_lookup_middle by done. simpl in Hn.
      case_bool_decide.
      * replace (S (length pre)) with (length (pre ++ [uuid]))
          by (rewrite length_app; simpl; lia).
        rewrite (cons_middle uuid pre rest), app_assoc, IH by lia.
        by rewrite <- app_assoc.
      * destruct (cleanupCharacteristics id enabled n (S (length pre))
                    (delete (length pre) (pre ++ uuid :: rest)))
          as [left evs] eqn:Hrest. simpl.
        replace (delete (length pre) (pre ++ uuid :: rest)) with (pre ++ rest)
          in Hrest by (rewrite delete_middle; done).
        destruct rest as [|next rest].
        -- rewrite cleanupCharacteristics_past_end in Hrest
             by (rewrite length_app; simpl; lia).
           by injection Hrest as <- _.
        -- replace (S (length pre)) with (length (pre ++ [next])) in Hrest
             by (rewrite length_app; simpl; lia).
           rewrite (cons_middle next pre rest), app_assoc in Hrest.
           pose proof (IH (pre ++ [next]) rest) as Hsweep.
           rewrite Hrest in Hsweep. simpl in *. rewrite Hsweep by lia.
           by rewrite <- app_assoc.
Qed.

Lemma cleanupServices_past_end this enabledServices n k s :
  (length (st_services s) ≤ k)%nat →
  cleanupServices this enabledServices n k s = (Js.Normal (), s, []).
Proof.
  revert k. induction n as [|n IH]; intros k Hk; simpl; [done|].
  rewrite get_bind, lookup_ge_None_2 by done. apply IH. lia.
Qed.

Lemma set_services_services l s : st_services (set_services l s) = l.
Proof. done. Qed.

(** The index-driven loop over the live array and the structural reading
    agree. *)
Lemma cleanupServices_sweep this enabledServices n pre rest s :
  (length rest ≤ n)%nat →
  st_services s = pre ++ rest →
  st_services (final (cleanupServices this enabledServices n (length pre)) s)
  = pre ++ sweepServices this enabledServices rest.
Proof.
  revert pre rest s. induction n as [|n IH]; intros pre rest s Hn Hs.
  - destruct rest; [|simpl in Hn; lia]. by rewrite app_nil_r in *.
  - destruct rest as [|service rest].
    + rewrite app_nil_r in *. unfold final.
      rewrite cleanupServices_past_end by (rewrite Hs; lia). by simpl.
    + simpl in Hn. unfold final. simpl. rewrite get_bind, Hs.
      rewrite list_lookup_middle by done.
      pose proof (cleanupCharacteristics_sweep (getServiceId service)
                    (enabledCharacteristics this (getServiceId service))
                    (length (s_characteristics service)) []
                    (s_characteristics service)) as Hchars.
      simpl in Hchars. unfold enabledCharacteristics in Hchars.
      destruct (cleanupCharacteristics _ _ _ _ _) as [characteristics evs0].
      simpl in Hchars. rewrite Hchars by done. clear Hchars.
      fold (enabledCharacteristics this (getServiceId service)).
      case_bool_decide; run_m.
      * rewrite Hs, insert_app_r_alt, Nat.sub_diag by done. simpl.
        set (service' := withCharacteristics _ service).
        pose proof (IH (pre ++ [service']) rest
                      (set_services (pre ++ service' :: rest) s)) as Hrec.
        rewrite length_app in Hrec. simpl in Hrec.
        replace (length pre + 1)%nat with (S (length pre)) in Hrec by lia.
        unfold final in Hrec.
        destruct (cleanupServices this enabledServices n (S (length pre)) _)
          as [[[[]|e] s'] evs]; simpl in *;
          (rewrite Hrec; [by rewrite <- app_assoc|lia|by rewrite <- app_assoc]).
      * rewrite ?Hs, delete_middle.
        destruct rest as [|next rest].
        -- rewrite cleanupServices_past_end
             by (simpl; rewrite app_nil_r; lia).
           by simpl.
        -- pose proof (IH (pre ++ [next]) rest
                         (set_services (pre ++ next :: rest) s)) as Hrec.
           rewrite length_app in Hrec. simpl in Hrec.
           replace (length pre + 1)%nat with (S (length pre)) in Hrec by lia.
           unfold final in Hrec.
           destruct (cleanupServices this enabledServices n (S (length pre)) _)
             as [[[[]|e] s'] evs]; simpl in *;
             (rewrite Hrec; [by rewrite <- app_assoc|lia
                            |by rewrite <- app_assoc]).
Qed.

(** Induction that also gives the property for the tail of the tail, as
    the sweeps step over the element after a removed one. *)
Lemma list_skip_ind {A} (P : list A → Prop) :
  P [] →
  (∀ x l, P l → (∀ y l', l = y :: l' → P l') → P (x :: l)) →
  ∀ l, P l.
Proof.
  intros Hnil Hcons l.
  enough (P l ∧ ∀ y l', l = y :: l' → P l') as [? _] by done.
  induction l as [|x l [IH1 IH2]]; [by split|].
  split; [by apply Hcons|]. by intros y l' [= _ <-].
Qed.

Lemma sweepCharacteristics_keeps enabled characteristics uuid :
  uuid ∈ characteristics → uuid ∈ enabled →
  uuid ∈ sweepCharacteristics enabled characteristics.
Proof.
  intros Hin Henabled. revert Hin.
  induction characteristics as [|x l IH IHskip] using list_skip_ind;
    [done|].
  simpl. intros [->|Hin]%elem_of_cons.
  - rewrite bool_decide_eq_true_2 by done. apply elem_of_cons. by left.
  - case_bool_decide; [apply elem_of_cons; right; by apply IH|].
    destruct l as [|next l']; [done|].
    apply elem_of_cons in Hin as [->|Hin]; apply elem_of_cons; [by left|].
    right. by apply (IHskip next l').
Qed.

Lemma sweepCharacteristics_subset enabled characteristics uuid :
  uuid ∈ sweepCharacteristics enabled characteristics →
  uuid ∈ characteristics.
Proof.
  induction characteristics as [|x l IH IHskip] using list_skip_ind;
    [done|].
  simpl. case_bool_decide.
  - intros [->|Hin]%elem_of_cons; apply elem_of_cons; [by left|].
    right. by apply IH.
  - destruct l as [|next l']; [by intros ?%elem_of_nil|].
    intros [->|Hin]%elem_of_cons; apply elem_of_cons; right;
      apply elem_of_cons; [by left|]. right. by apply (IHskip next l').
Qed.

Lemma sweptFrom_refl this service : sweptFrom this service service.
Proof. by repeat split. Qed.

Lemma sweptFrom_swept this service :
  sweptFrom this service
    (withCharacteristics
       (sweepCharacteristics
          (enabledCharacteristics this (getServiceId service))
          (s_characteristics service)) service).
Proof.
  split_and!; try done; simpl.
  - apply sweepCharacteristics_subset.
  - apply sweepCharacteristics_keeps.
Qed.

Lemma sweepServices_keeps this enabledServices services service :
  service ∈ services →
  getServiceId service ∈ enabledServices →
  ∃ service', service' ∈ sweepServices this enabledServices services ∧
              sweptFrom this service service'.
Proof.
  intros Hin Henabled. revert Hin.
  induction services as [|x l IH IHskip] using list_skip_ind;
    [by intros ?%elem_of_nil|].
  simpl. intros [->|Hin]%elem_of_cons.
  - rewrite bool_decide_eq_true_2 by done.
    eexists. split; [by left|apply sweptFrom_swept].
  - case_bool_decide.
    + destruct (IH Hin) as (service' & ? & ?). exists service'.
      split; [by right|done].
    + destruct l as [|next l']; [by apply elem_of_nil in Hin|].
      apply elem_of_cons in Hin as [->|Hin].
      * exists next. split; [by left|apply sweptFrom_refl].
      * destruct (IHskip next l' eq_refl Hin) as (service' & ? & ?).
        exists service'. split; [by right|done].
Qed.

Lemma sweepServices_from this enabledServices services service' :
  service' ∈ sweepServices this enabledServices services →
  ∃ service, service ∈ services ∧ sweptFrom this service service'.
Proof.
  induction services as [|x l IH IHskip] using list_skip_ind;
    [by intros ?%elem_of_nil|].
  simpl. case_bool_decide.
  - intros [->|Hin]%elem_of_cons.
    + exists x. split; [by left|apply sweptFrom_swept].
    + destruct (IH Hin) as (service & ? & ?). exists service.
      split; [by right|done].
  - destruct l as [|next l']; [by intros ?%elem_of_nil|].
    intros [->|Hin]%elem_of_cons.
    + exists next. split; [|apply sweptFrom_refl].
      right. by left.
    + destruct (IHskip next l' eq_refl Hin) as (service & ? & ?).
      exists service. split; [|done].
      right. by right.
Qed.

Lemma sweepServices_complete this enabledServices services :
  noAdjacentDisabled (serviceEnabled enabledServices) services = true →
  getServiceId <$> sweepServices this enabledServices services
  = filter (λ id, id ∈ enabledServices) (getServiceId <$> services).
Proof.
  induction services as [|x l IH IHskip] using list_skip_ind; [done|].
  cbn [noAdjacentDisabled sweepServices]. unfold serviceEnabled at 1.
  intros [Hhead Hrest]%andb_prop. rewrite fmap_cons, filter_cons.
  case_bool_decide as Hx.
  - rewrite decide_True by done. rewrite fmap_cons. by rewrite IH.
  - rewrite decide_False by done. simpl in Hhead.
    destruct l as [|next l']; [done|].
    unfold serviceEnabled in Hhead. apply bool_decide_eq_true in Hhead.
    cbn [noAdjacentDisabled] in Hrest. apply andb_prop in Hrest as [_ Hrest].
    rewrite !fmap_cons, filter_cons, decide_True by done.
    by rewrite (IHskip next l').
Qed.

(** What a completed configuration pass leaves of the accessory's services:
    the sweep of the services there were once every row was registered. *)
Lemma configureAccessory_services this s :
  result (configureAccessory this) s = Js.Normal () →
  result (forEach (features this) (register this)) s = Js.Normal () ∧
  st_services (final (configureAccessory this) s)
  = sweepServices this (map featureServiceId (features this))
      (st_services (final (forEach (features this) (register this)) s)).
Proof.
  unfold result, final, configureAccessory.
  destruct (forEach (features this) (register this) s)
    as [[[[]|e] s1] evs1] eqn:Hreg.
  - rewrite (bind_normal _ _ _ _ _ _ Hreg). simpl. intros _. split; [done|].
    rewrite get_bind.
    destruct (cleanupServices_run this (map featureServiceId (features this))
                (length (st_services s1)) 0 s1)
      as (s2 & evs2 & Hclean & _).
    pose proof (cleanupServices_sweep this
                  (map featureServiceId (features this))
                  (length (st_services s1)) [] (st_services s1) s1
                  (le_n _) eq_refl) as Hsweep.
    unfold final in Hsweep. simpl in Hsweep. rewrite Hclean in Hsweep.
    simpl in Hsweep.
    rewrite (bind_normal _ _ _ _ _ _ Hclean). simpl.
    erewrite bind_normal; [|reflexivity]. simpl.
    destruct (newHistoryServices_run
                (foldl setAdd [] (omap cfg_historyType (features this))) s2)
      as (s3 & evs3 & Hhist & _ & _ & Hservices & _).
    rewrite Hhist. simpl. congruence.
  - rewrite (bind_throw _ _ _ _ _ _ Hreg). done.
Qed.

(** X1.  After a completed configuration pass the services of the
    accessory are the sweep, from left to right, of the services present
    once all rows were registered: an enabled service stays with its
    characteristics swept the same way, a disabled one goes, and the service
    right after a removed one stays as it is, unexamined. *)
Theorem cleanup_is_a_sweep (this : BaseHumidifier) (s : State) :
  result (configureAccessory this) s = Js.Normal () →
  st_services (final (configureAccessory this) s)
  = sweepServices this (map featureServiceId (features this))
      (st_services (final (forEach (features this) (register this)) s)).
Proof. intros Hpass. by apply configureAccessory_services. Qed.

Lemma cleanup_is_a_sweep_witness :
  let this := Sample.engine Sample.climate [Sample.active; Sample.led] in
  let s := constructed Cases.fourServices in
  result (configureAccessory this) s = Js.Normal () ∧
  st_services (final (configureAccessory this) s)
  = [mkService "HumidifierDehumidifier" None "" ["Active"];
     mkService "HumiditySensor" None "" ["CurrentRelativeHumidity"];
     mkService "Lightbulb" None "" ["On"]].
Proof.
  split; [vm_compute; reflexivity|].
  etrans;
    [refine (cleanup_is_a_sweep
               (Sample.engine Sample.climate [Sample.active; Sample.led])
               (constructed Cases.fourServices) _)|];
    vm_compute; reflexivity.
Defined.

(** X2.  Cleanup only removes, and never what the table enables: after a
    completed pass every service whose id a row names is still on the
    accessory with every characteristic the table enables on it, and every
    service on the accessory was there after registration, with no
    characteristic added. *)
Theorem cleanup_spares_enabled (this : BaseHumidifier) (s : State) :
  result (configureAccessory this) s = Js.Normal () →
  (∀ service,
     service ∈ st_services (final (forEach (features this) (register this)) s) →
     getServiceId service ∈ map featureServiceId (features this) →
     ∃ service',
       service' ∈ st_services (final (configureAccessory this) s) ∧
       sweptFrom this service service') ∧
  (∀ service',
     service' ∈ st_services (final (configureAccessory this) s) →
     ∃ service,
       service ∈ st_services
                   (final (forEach (features this) (register this)) s) ∧
       sweptFrom this service service').
Proof.
  intros [_ ->]%configureAccessory_services. split.
  - intros service. apply sweepServices_keeps.
  - intros service'. apply sweepServices_from.
Qed.

Lemma cleanup_spares_enabled_witness :
  let this := Sample.engine Sample.climate [Sample.active; Sample.led] in
  let s := constructed Cases.fourServices in
  result (configureAccessory this) s = Js.Normal () ∧
  ∃ service',
    service' ∈ st_services (final (configureAccessory this) s) ∧
    sweptFrom this (mkService "Lightbulb" None "" ["On"]) service'.
Proof.
  split; [vm_compute; reflexivity|].
  refine (proj1 (cleanup_spares_enabled
                   (Sample.engine Sample.climate [Sample.active; Sample.led])
                   (constructed Cases.fourServices) _)
            (mkService "Lightbulb" None "" ["On"]) _ _).
  - vm_compute; reflexivity.
  - vm_compute. do 3 right. left.
  - vm_compute. right. left.
Defined.

(** X3.  When, after registration, no disabled service stands right after
    another disabled one, a completed pass leaves exactly the enabled
    services, in their order. *)
Theorem cleanup_complete_when_spaced (this : BaseHumidifier) (s : State) :
  result (configureAccessory this) s = Js.Normal () →
  noAdjacentDisabled
    (serviceEnabled (map featureServiceId (features this)))
    (st_services (final (forEach (features this) (register this)) s)) = true →
  getServiceId <$> st_services (final (configureAccessory this) s)
  = filter (λ id, id ∈ map featureServiceId (features this))
      (getServiceId <$>
         st_services (final (forEach (features this) (register this)) s)).
Proof.
  intros [_ ->]%configureAccessory_services Hspaced.
  by apply sweepServices_complete.
Qed.

Lemma cleanup_complete_when_spaced_witness :
  let this :=
    Sample.engine Sample.climate
      [Sample.active; Sample.humidity] in
  let s := constructed Cases.fourServices in
  result (configureAccessory this) s = Js.Normal () ∧
  noAdjacentDisabled
    (serviceEnabled (map featureServiceId (features this)))
    (st_services (final (forEach (features this) (register this)) s)) = true ∧
  (getServiceId <$> st_services (final (configureAccessory this) s))
  = ["HumidifierDehumidifier"; "HumiditySensor"].
Proof.
  split; [vm_compute; reflexivity|]. split; [vm_compute; reflexivity|].
  etrans;
    [refine (cleanup_complete_when_spaced
               (Sample.engine Sample.climate [Sample.active; Sample.humidity])
               (constructed Cases.fourServices) _ _)|];
    vm_compute; reflexivity.
Defined.

(** ** The index, binding by binding *)

Lemma bindings_saveProp key value props :
  bindings (saveProp key value props) ≡ₚ bindings props ++ [(key, value)].
Proof.
  induction props as [|entry props IH]; [done|].
  cbn [saveProp]. case_bool_decide as Hkey.
  - rewrite !bindings_cons. simpl. rewrite fmap_app. simpl.
    rewrite Hkey, <- !app_assoc. apply Permutation_app_head.
    apply Permutation_app_comm.
  - rewrite !bindings_cons, IH. by rewrite app_assoc.
Qed.

Lemma registerAll_bindings this table s s' evs :
  forEach table (register this) s = (Js.Normal (), s', evs) →
  (bindings (st_props s')).*1
  ≡ₚ (bindings (st_props s)).*1 ++ dynamicKeys table.
Proof.
  revert s evs. induction table as [|config table IH]; intros s evs; simpl.
  - intros [= <- <-]. unfold dynamicKeys. simpl. by rewrite app_nil_r.
  - intros (a & s1 & evs1 & evs2 & Hreg & Hrest & _)%bind_inv_normal.
    rewrite (IH _ _ Hrest).
    pose proof (register_props this config s) as Hprops.
    unfold result, final in Hprops. rewrite Hreg in Hprops. simpl in Hprops.
    unfold dynamicKeys. simpl.
    destruct (cfg_variant config) as [value|key get_map set]; simpl.
    + by rewrite Hprops.
    + destruct Hprops as [characteristic ->].
      rewrite bindings_saveProp, fmap_app. simpl.
      by rewrite <- app_assoc.
Qed.



(** X5.  On an instance configured once, a poll whose fetch succeeds pushes
    exactly one value per row without ["value"]: as many [updateValue]
    calls as the table has such rows. *)
Theorem poll_pushes_once_per_row
    (this : BaseHumidifier) (services : list Service) (s' : State)
    (evs : list Event) (fetched : PropsType) :
  configureAccessory this (constructed services) = (Js.Normal (), s', evs) →
  protocol_getProps (protocol this) (map ge_key (st_props s'))
  = Js.Normal fetched →
  length (pushes (events (update this) s'))
  = length (dynamicKeys (features this)).
Proof.
  intros (s1 & evs1 & Hreg & Hprops & _)%configureAccessory_inv Hfetch.
  apply registerAll_bindings in Hreg. rewrite <- Hprops in Hreg.
  simpl in Hreg. rewrite <- Hreg, length_fmap.
  destruct (update_success_run this s' fetched Hfetch)
    as (s2 & evs2 & Hloop & Hrun).
  destruct (pushAll_run this fetched (bindings (st_props s'))
              (set_cache fetched s'))
    as (s3 & evs3 & Hloop' & _ & _ & _ & Hpush & _).
  rewrite Hloop in Hloop'. injection Hloop' as <- <-.
  unfold events. rewrite Hrun. simpl.
  change (length (pushes evs2) = length (bindings (st_props s'))).
  by rewrite Hpush, length_fmap.
Qed.

Lemma poll_pushes_once_per_row_witness :
  let table :=
    [Sample.manufacturer; Sample.roomTemperature; Sample.roomHumidity] in
  let this := Sample.engine Sample.climate table in
  let s' := Sample.configured Sample.climate table [] in
  configureAccessory this (constructed [])
  = (Js.Normal (), s', events (configureAccessory this) (constructed [])) ∧
  length (pushes (events (update this) s')) = 2%nat.
Proof.
  split; [vm_compute; reflexivity|].
  refine (poll_pushes_once_per_row
            (Sample.engine Sample.climate
               [Sample.manufacturer; Sample.roomTemperature;
                Sample.roomHumidity])
            []
            (Sample.configured Sample.climate
               [Sample.manufacturer; Sample.roomTemperature;
                Sample.roomHumidity] [])
            (events (configureAccessory
                       (Sample.engine Sample.climate
                          [Sample.manufacturer; Sample.roomTemperature;
                           Sample.roomHumidity]))
               (constructed []))
            {[ "temp" := Js.Num 21; "humidity" := Js.Num 55 ]} _ _);
    vm_compute; reflexivity.
Defined.

(** ** What a configuration pass touches *)

Lemma register_frame this config s :
  st_cache (final (register this config) s) = st_cache s ∧
  st_historyServices (final (register this config) s) = st_historyServices s ∧
  forallb isRegistrationEvent (events (register this config) s) = true.
Proof.
  unfold final, events, register, getService, addService, getCharacteristic.
  run_m.
  repeat (case_match; simpl in *; simplify_eq; eauto).
Qed.

Lemma registerAll_frame this table s :
  st_cache (final (forEach table (register this)) s) = st_cache s ∧
  st_historyServices (final (forEach table (register this)) s)
  = st_historyServices s ∧
  forallb isRegistrationEvent (events (forEach table (register this)) s)
  = true.
Proof.
  revert s. induction table as [|config table IH]; intros s; [done|].
  destruct (register_frame this config s) as (Hc & Hh & Hevs).
  unfold final, events in *. simpl.
  destruct (register this config s) as [[[[]|e] s1] evs1] eqn:Hreg.
  - rewrite (bind_normal _ _ _ _ _ _ Hreg). simpl in *.
    destruct (IH s1) as (Hc' & Hh' & Hevs').
    rewrite forallb_app, Hevs, Hevs'. split_and!; [congruence|congruence|done].
  - rewrite (bind_throw _ _ _ _ _ _ Hreg). done.
Qed.

Lemma cleanupCharacteristics_events id enabled n k characteristics :
  forallb isCleanupEvent
    (cleanupCharacteristics id enabled n k characteristics).2 = true.
Proof.
  revert k characteristics. induction n as [|n IH]; intros k l; [done|].
  simpl. destruct (l !! k) as [uuid|]; [|apply IH].
  case_bool_decide; [apply IH|].
  pose proof (IH (S k) (delete k l)) as Hrest.
  destruct (cleanupCharacteristics id enabled n (S k) (delete k l)). done.
Qed.

Lemma cleanupServices_events this enabledServices n k s :
  forallb isCleanupEvent (events (cleanupServices this enabledServices n k) s)
  = true.
Proof.
  revert k s. induction n as [|n IH]; intros k s; [done|].
  unfold events in *. simpl. rewrite get_bind.
  destruct (st_services s !! k) as [service|]; [|apply IH].
  pose proof (cleanupCharacteristics_events (getServiceId service)
                (enabledCharacteristics this (getServiceId service))
                (length (s_characteristics service)) 0
                (s_characteristics service)) as Hchars.
  unfold enabledCharacteristics in Hchars.
  destruct (cleanupCharacteristics _ _ _ _ _) as [characteristics evs0].
  simpl in Hchars.
  case_bool_decide; run_m.
  - pose proof (IH (S k) (set_services
                  (<[k:=withCharacteristics characteristics service]>
                     (st_services s)) s)) as Hrest.
    destruct (cleanupServices this enabledServices n (S k) _)
      as [[r s'] evs]. simpl in *. by rewrite forallb_app, Hchars, Hrest.
  - pose proof (IH (S k) (set_services (delete k (st_services s)) s)) as Hrest.
    destruct (cleanupServices this enabledServices n (S k) _)
      as [[r s'] evs]. simpl in *. by rewrite forallb_app, Hchars, Hrest.
Qed.

(** X6.  When registering a row throws, the pass stops there and the error
    leaves [configureAccessory]: nothing is removed from the accessory and
    no history service is created or replaced; the cache is untouched. *)
Theorem aborted_pass_skips_cleanup_and_history
    (this : BaseHumidifier) (s : State) (err : Js.Error) :
  result (configureAccessory this) s = Js.Throw err →
  result (forEach (features this) (register this)) s = Js.Throw err ∧
  forallb isRegistrationEvent (events (configureAccessory this) s) = true ∧
  st_historyServices (final (configureAccessory this) s) = st_historyServices s ∧
  st_cache (final (configureAccessory this) s) = st_cache s.
Proof.
  destruct (registerAll_frame this (features this) s) as (Hc & Hh & Hevs).
  unfold result, final, events, configureAccessory in *.
  destruct (forEach (features this) (register this) s)
    as [[[[]|e] s1] evs1] eqn:Hreg.
  - rewrite (bind_normal _ _ _ _ _ _ Hreg). simpl. rewrite get_bind.
    destruct (cleanupServices_run this (map featureServiceId (features this))
                (length (st_services s1)) 0 s1)
      as (s2 & evs2 & Hclean & _).
    rewrite (bind_normal _ _ _ _ _ _ Hclean). simpl.
    erewrite bind_normal; [|reflexivity]. simpl.
    destruct (newHistoryServices_run
                (foldl setAdd [] (omap cfg_historyType (features this))) s2)
      as (s3 & evs3 & Hhist & _).
    rewrite Hhist. done.
  - rewrite (bind_throw _ _ _ _ _ _ Hreg). simpl in *. by intros [= ->].
Qed.

Lemma aborted_pass_skips_cleanup_and_history_witness :
  let this :=
    Sample.engine Sample.climate
      [Sample.roomHumidity; Cases.nightLight; Cases.clash; Sample.active] in
  let s := constructed Cases.fourServices in
  result (configureAccessory this) s = Js.Throw duplicateService ∧
  forallb isRegistrationEvent (events (configureAccessory this) s) = true ∧
  st_historyServices (final (configureAccessory this) s) = ∅ ∧
  map ge_key (st_props (final (configureAccessory this) s))
  = ["humidity"; "led"].
Proof.
  split; [vm_compute; reflexivity|].
  split; [|split; vm_compute; reflexivity].
  refine (proj1 (proj2 (aborted_pass_skips_cleanup_and_history
            (Sample.engine Sample.climate
               [Sample.roomHumidity; Cases.nightLight; Cases.clash;
                Sample.active])
            (constructed Cases.fourServices) duplicateService _))).
  vm_compute; reflexivity.
Defined.

Lemma setAdd_foldl_NoDup types set :
  NoDup set → NoDup (foldl setAdd set types).
Proof.
  revert set. induction types as [|x types IH]; intros set Hset; [done|].
  simpl. apply IH. unfold setAdd. case_bool_decide; [done|].
  apply NoDup_app. split_and!; [done| |apply NoDup_singleton].
  intros y Hy ->%list_elem_of_singleton. done.
Qed.

Lemma newHistoryServices_calls types s :
  ∃ s' evs,
    forEach types (λ type,
      emit (EvNewHistoryService type);;
      modify (λ s, set_historyServices
                     (<[ type := newEveHistoryService type ]>
                        (st_historyServices s)) s)) s
    = (Js.Normal (), s', evs) ∧
    newHistoryServiceCalls evs = types ∧
    (∀ type, type ∈ types →
             st_historyServices s' !! type = Some (newEveHistoryService type)) ∧
    (∀ type, type ∉ types →
             st_historyServices s' !! type = st_historyServices s !! type).
Proof.
  revert s. induction types as [|type types IH]; intros s; simpl.
  - exists s, []. split_and!; try done. by intros ? ?%elem_of_nil.
  - destruct (IH (set_historyServices
                    (<[type:=newEveHistoryService type]> (st_historyServices s))
                    s))
      as (s' & evs & Hrun & Hcalls & Hnew & Hold).
    erewrite bind_normal; [|reflexivity]. rewrite Hrun.
    eexists _, _. split; [done|]. simpl. split_and!.
    + unfold newHistoryServiceCalls in *. simpl. by rewrite Hcalls.
    + intros type' Hin. destruct (decide (type' ∈ types)) as [?|Hnot];
        [by apply Hnew|].
      apply elem_of_cons in Hin as [->|?]; [|done].
      rewrite Hold by done. simpl. by rewrite lookup_insert_eq.
    + intros type' Hnot. apply not_elem_of_cons in Hnot as [? ?].
      rewrite Hold by done. simpl. by rewrite lookup_insert_ne.
Qed.

Lemma newHistoryServiceCalls_app evs1 evs2 :
  newHistoryServiceCalls (evs1 ++ evs2)
  = newHistoryServiceCalls evs1 ++ newHistoryServiceCalls evs2.
Proof. apply omap_app. Qed.

Lemma registration_no_history_calls evs :
  forallb isRegistrationEvent evs = true → newHistoryServiceCalls evs = [].
Proof.
  induction evs as [|ev evs IH]; [done|]. simpl. intros [Hev Hevs]%andb_prop.
  unfold newHistoryServiceCalls in *. simpl.
  destruct ev; try discriminate Hev; by apply IH.
Qed.

Lemma cleanup_no_history_calls evs :
  forallb isCleanupEvent evs = true → newHistoryServiceCalls evs = [].
Proof.
  induction evs as [|ev evs IH]; [done|]. simpl. intros [Hev Hevs]%andb_prop.
  unfold newHistoryServiceCalls in *. simpl.
  destruct ev; try discriminate Hev; by apply IH.
Qed.

(** X7.  A completed configuration pass constructs one history service per
    distinct [historyType] found on a row, static rows included, each type
    once; the instance then holds a new service (no open entry) for each of
    these types, in place of any it held, and keeps the services of other
    types. *)
Theorem one_history_service_per_type
    (this : BaseHumidifier) (s s' : State) (evs : list Event) :
  configureAccessory this s = (Js.Normal (), s', evs) →
  NoDup (newHistoryServiceCalls evs) ∧
  (∀ type, type ∈ newHistoryServiceCalls evs
           ↔ ∃ config, config ∈ features this ∧
                       cfg_historyType config = Some type) ∧
  (∀ type, type ∈ newHistoryServiceCalls evs →
           st_historyServices s' !! type = Some (newEveHistoryService type)) ∧
  (∀ type, type ∉ newHistoryServiceCalls evs →
           st_historyServices s' !! type = st_historyServices s !! type).
Proof.
  unfold configureAccessory.
  intros ([] & s1 & evs1 & evs2 & Hreg & Hrest & ->)%bind_inv_normal.
  destruct (registerAll_frame this (features this) s) as (_ & Hh1 & Hevs1).
  unfold final, events in Hh1, Hevs1. rewrite Hreg in Hh1, Hevs1.
  simpl in Hh1, Hevs1.
  rewrite get_bind in Hrest.
  destruct (cleanupServices_run this (map featureServiceId (features this))
              (length (st_services s1)) 0 s1)
    as (s2 & evs3 & Hclean & _ & _ & Hh2).
  pose proof (cleanupServices_events this
                (map featureServiceId (features this))
                (length (st_services s1)) 0 s1) as Hevs3.
  unfold events in Hevs3. rewrite Hclean in Hevs3. simpl in Hevs3.
  rewrite (bind_normal _ _ _ _ _ _ Hclean) in Hrest.
  erewrite bind_normal in Hrest; [|reflexivity].
  destruct (newHistoryServices_calls
              (foldl setAdd [] (omap cfg_historyType (features this))) s2)
    as (s3 & evs4 & Hhist & Hcalls & Hnew & Hold).
  simpl in Hrest. rewrite Hhist in Hrest. simpl in Hrest.
  injection Hrest as <- <-.
  assert (newHistoryServiceCalls (evs1 ++ evs3 ++
            EvLog Debug (MsgHistoryTypes
              (foldl setAdd [] (omap cfg_historyType (features this)))) :: evs4)
          = foldl setAdd [] (omap cfg_historyType (features this))) as ->.
  { rewrite !newHistoryServiceCalls_app,
      registration_no_history_calls, cleanup_no_history_calls by done.
    simpl. exact Hcalls. }
  split_and!.
  - apply setAdd_foldl_NoDup, NoDup_nil_2.
  - intros type. rewrite setAdd_foldl, list_elem_of_omap, elem_of_nil.
    tauto.
  - done.
  - intros type Hnot. rewrite Hold by done. congruence.
Qed.

Lemma one_history_service_per_type_witness :
  let table :=
    [Sample.roomTemperature; Sample.active; Sample.roomHumidity] in
  let this := Sample.engine Sample.climate table in
  let s := final (update this) (Sample.configured Sample.climate table []) in
  let s' := final (configureAccessory this) s in
  configureAccessory this s
  = (Js.Normal (), s', events (configureAccessory this) s) ∧
  newHistoryServiceCalls (events (configureAccessory this) s) = ["room"] ∧
  is_Some (st_historyServices s !! "room" ≫= getLastEntry) ∧
  st_historyServices s' !! "room" = Some (newEveHistoryService "room").
Proof.
  split; [vm_compute; reflexivity|]. split; [vm_compute; reflexivity|].
  split; [eexists; vm_compute; reflexivity|].
  refine (proj1 (proj2 (proj2 (one_history_service_per_type
            (Sample.engine Sample.climate
               [Sample.roomTemperature; Sample.active; Sample.roomHumidity])
            (final (update (Sample.engine Sample.climate
                              [Sample.roomTemperature; Sample.active;
                               Sample.roomHumidity]))
               (Sample.configured Sample.climate
                  [Sample.roomTemperature; Sample.active;
                   Sample.roomHumidity] []))
            _ _ _))) "room" _).
  - vm_compute; reflexivity.
  - vm_compute. left.
Defined.

(** ** Polls and reads together *)

Lemma getProp_run this key getMap s :
  ∃ s' evs,
    callGetMap this getMap (servedValue (st_cache s) key) s
    = (Js.Normal (readTransform getMap (servedValue (st_cache s) key)),
       s', evs) ∧
    getProp this key getMap s
    = (Js.Normal (), s',
       EvLog Debug (MsgGetting key) :: evs
         ++ [EvGetCallback None
               (readTransform getMap (servedValue (st_cache s) key))]) ∧
    forallb isInternal evs = true.
Proof.
  assert ((if Js.truthy (default Js.Undefined (st_cache s !! key))
           then default Js.Undefined (st_cache s !! key) else Js.Null)
          = servedValue (st_cache s) key) as Hserved.
  { unfold servedValue. by destruct (st_cache s !! key). }
  destruct (callGetMap_returns this getMap (servedValue (st_cache s) key) s)
    as (s' & evs & Hmap & _ & _ & _ & Hint).
  exists s', evs. split_and!; [done| |done].
  unfold getProp. run_m. rewrite Hserved, Hmap. done.
Qed.

Lemma getProp_answer this key getMap s :
  getCallbacks (events (getProp this key getMap) s)
  = [(None, readTransform getMap (servedValue (st_cache s) key))].
Proof.
  destruct (getProp_run this key getMap s) as (s' & evs & _ & Hrun & Hint).
  unfold events. rewrite Hrun. simpl. unfold getCallbacks. simpl.
  rewrite omap_app. fold (getCallbacks evs).
  by rewrite internal_getCallbacks.
Qed.

(** The state and the pushes of a poll whose fetch succeeds. *)
Lemma update_success_effects this s fetched :
  protocol_getProps (protocol this) (map ge_key (st_props s))
  = Js.Normal fetched →
  st_cache (final (update this) s) = fetched ∧
  pushes (events (update this) s)
  = (λ binding, (gv_characteristic binding.2,
                 readTransform (gv_map binding.2)
                   (default Js.Undefined (fetched !! binding.1))))
      <$> bindings (st_props s).
Proof.
  intros Hfetch.
  destruct (update_success_run this s fetched Hfetch)
    as (s' & evs & Hloop & Hrun).
  destruct (pushAll_run this fetched (bindings (st_props s))
              (set_cache fetched s))
    as (s1 & evs1 & Hloop' & _ & Hc & _ & Hpush & _).
  rewrite Hloop in Hloop'. injection Hloop' as <- <-.
  unfold final, events. rewrite Hrun. simpl. split; [done|].
  exact Hpush.
Qed.

(** X8.  After a poll has fetched a truthy value for a key, a read of a
    binding of that key answers with the value the poll pushed to the
    binding's characteristic: the read transform of the fetched value. *)
Theorem read_after_poll_agrees
    (this : BaseHumidifier) (s : State) (fetched : PropsType)
    (key : string) (value : GetEntryValue) (v : Js.Value) :
  protocol_getProps (protocol this) (map ge_key (st_props s))
  = Js.Normal fetched →
  (key, value) ∈ bindings (st_props s) →
  fetched !! key = Some v →
  Js.truthy v = true →
  (gv_characteristic value, readTransform (gv_map value) v)
  ∈ pushes (events (update this) s) ∧
  getCallbacks (events (onGet this (GetDynamic key (gv_map value)))
                  (final (update this) s))
  = [(None, readTransform (gv_map value) v)].
Proof.
  intros Hfetch Hin Hv Htruthy.
  destruct (update_success_effects this s fetched Hfetch) as [Hcache Hpush].
  split.
  - rewrite Hpush. apply list_elem_of_fmap. exists (key, value).
    simpl. by rewrite Hv.
  - simpl. rewrite getProp_answer, Hcache. unfold servedValue.
    by rewrite Hv, Htruthy.
Qed.

Lemma read_after_poll_agrees_witness :
  let table := [Sample.roomTemperature; Sample.roomHumidity] in
  let this := Sample.engine Sample.climate table in
  let s := Sample.configured Sample.climate table [] in
  let value :=
    mkGetEntryValue ("HumiditySensor", "CurrentRelativeHumidity")
      (HistoryMap (λ it, it) "room" "humidity") in
  ("humidity", value) ∈ bindings (st_props s) ∧
  (gv_characteristic value, Js.Num 55) ∈ pushes (events (update this) s) ∧
  getCallbacks (events (onGet this (GetDynamic "humidity" (gv_map value)))
                  (final (update this) s))
  = [(None, Js.Num 55)].
Proof.
  split; [vm_compute; right; left|].
  refine (read_after_poll_agrees
            (Sample.engine Sample.climate
               [Sample.roomTemperature; Sample.roomHumidity])
            (Sample.configured Sample.climate
               [Sample.roomTemperature; Sample.roomHumidity] [])
            {[ "temp" := Js.Num 21; "humidity" := Js.Num 55 ]}
            "humidity"
            (mkGetEntryValue ("HumiditySensor", "CurrentRelativeHumidity")
               (HistoryMap (λ it, it) "room" "humidity"))
            (Js.Num 55) _ _ _ eq_refl).
  - vm_compute; reflexivity.
  - vm_compute; right; left.
  - vm_compute; reflexivity.
Defined.

(** X9.  When the fetched mapping lacks the key of a binding, the poll
    pushes the read transform of [undefined] to the binding's
    characteristic, while a read after that poll answers with the read
    transform of [null]. *)
Theorem missing_property_undefined_then_null
    (this : BaseHumidifier) (s : State) (fetched : PropsType)
    (key : string) (value : GetEntryValue) :
  protocol_getProps (protocol this) (map ge_key (st_props s))
  = Js.Normal fetched →
  (key, value) ∈ bindings (st_props s) →
  fetched !! key = None →
  (gv_characteristic value, readTransform (gv_map value) Js.Undefined)
  ∈ pushes (events (update this) s) ∧
  getCallbacks (events (onGet this (GetDynamic key (gv_map value)))
                  (final (update this) s))
  = [(None, readTransform (gv_map value) Js.Null)].
Proof.
  intros Hfetch Hin Hv.
  destruct (update_success_effects this s fetched Hfetch) as [Hcache Hpush].
  split.
  - rewrite Hpush. apply list_elem_of_fmap. exists (key, value).
    simpl. by rewrite Hv.
  - simpl. rewrite getProp_answer, Hcache. unfold servedValue.
    by rewrite Hv.
Qed.

Lemma missing_property_undefined_then_null_witness :
  let table := [Sample.temperature; Sample.humidity] in
  let this := Sample.engine Cases.onlyTemperature table in
  let s := Sample.configured Cases.onlyTemperature table [] in
  let value :=
    mkGetEntryValue ("HumiditySensor", "CurrentRelativeHumidity")
      (PlainMap (λ it, it)) in
  ("humidity", value) ∈ bindings (st_props s) ∧
  (gv_characteristic value, Js.Undefined) ∈ pushes (events (update this) s) ∧
  getCallbacks (events (onGet this (GetDynamic "humidity" (gv_map value)))
                  (final (update this) s))
  = [(None, Js.Null)].
Proof.
  split; [vm_compute; right; left|].
  refine (missing_property_undefined_then_null
            (Sample.engine Cases.onlyTemperature
               [Sample.temperature; Sample.humidity])
            (Sample.configured Cases.onlyTemperature
               [Sample.temperature; Sample.humidity] [])
            {[ "temp" := Js.Num 21 ]}
            "humidity"
            (mkGetEntryValue ("HumiditySensor", "CurrentRelativeHumidity")
               (PlainMap (λ it, it)))
            _ _ _).
  - vm_compute; reflexivity.
  - vm_compute; right; left.
  - vm_compute; reflexivity.
Defined.

(** X10.  A read records history as a poll does: when the binding is
    tagged, the cached value is truthy, so is its read transform, and the
    channel has its service, the get responder takes one clock reading and
    leaves the integer reading of the result under the binding's field of
    the channel's open entry. *)
Theorem read_records_history
    (this : BaseHumidifier) (s : State) (key : string)
    (oldMap : Js.Value → Js.Value) (type field : string) (cached : Js.Value) :
  st_cache s !! key = Some cached →
  Js.truthy cached = true →
  Js.truthy (oldMap cached) = true →
  is_Some (st_historyServices s !! type) →
  entryField
    (final (onGet this (GetDynamic key (HistoryMap oldMap type field))) s)
    type field
  = Some (historyValue (oldMap cached)) ∧
  st_clock (final (onGet this (GetDynamic key (HistoryMap oldMap type field))) s)
  = S (st_clock s) ∧
  ∃ entry,
    st_historyServices
      (final (onGet this (GetDynamic key (HistoryMap oldMap type field))) s)
      !! type ≫= getLastEntry = Some entry ∧
    historyCalls
      (events (onGet this (GetDynamic key (HistoryMap oldMap type field))) s)
    = [EvGetLastEntry type; EvAddEntry type entry].
Proof.
  intros Hcached Htruthy Hresult Hservice.
  destruct (callGetMap_records this oldMap type field cached s Hresult Hservice)
    as (_ & Hclock & Hfield & _).
  assert (servedValue (st_cache s) key = cached) as Hserved
    by (unfold servedValue; by rewrite Hcached, Htruthy).
  destruct (getProp_run this key (HistoryMap oldMap type field) s)
    as (s' & evs & Hmap & Hrun & _).
  rewrite Hserved in Hmap, Hrun.
  unfold final in Hclock, Hfield. rewrite Hmap in Hclock, Hfield.
  simpl in Hclock, Hfield.
  unfold final, events. simpl. rewrite Hrun. simpl.
  split_and!; [done|done|].
  revert Hmap. simpl. rewrite Hresult. simpl. run_m.
  destruct Hservice as [historyService ->]. simpl.
  intros [= <- <-]. simpl. rewrite lookup_insert_eq. simpl. by eexists.
Qed.

Lemma read_records_history_witness :
  let table := [Sample.roomHumidity] in
  let this := Sample.engine Sample.climate table in
  let s :=
    set_cache {[ "humidity" := Js.Num 55 ]}
      (Sample.configured Sample.climate table []) in
  let s' :=
    final (onGet this
             (GetDynamic "humidity" (HistoryMap (λ it, it) "room" "humidity")))
      s in
  is_Some (st_historyServices s !! "room") ∧
  entryField s "room" "humidity" = None ∧
  entryField s' "room" "humidity" = Some (Js.Num 55) ∧
  st_clock s' = S (st_clock s).
Proof.
  split; [eexists; vm_compute; reflexivity|].
  split; [vm_compute; reflexivity|].
  refine (let H := read_records_history
            (Sample.engine Sample.climate [Sample.roomHumidity])
            (set_cache {[ "humidity" := Js.Num 55 ]}
               (Sample.configured Sample.climate [Sample.roomHumidity] []))
            "humidity" (λ it, it) "room" "humidity" (Js.Num 55)
            _ eq_refl eq_refl _ in conj (proj1 H) (proj1 (proj2 H))).
  - vm_compute; reflexivity.
  - eexists; vm_compute; reflexivity.
Defined.

(** ** What a poll leaves alone and what it logs *)

Lemma callGetMap_quiet this map it s :
  st_onGet (final (callGetMap this map it) s) = st_onGet s ∧
  st_onSet (final (callGetMap this map it) s) = st_onSet s ∧
  forallb isPollEvent (events (callGetMap this map it) s) = true.
Proof.
  unfold final, events.
  destruct map as [f|oldMap historyType historyKey]; simpl; [done|].
  destruct (Js.truthy (oldMap it)); simpl; [|done]. run_m.
  by destruct (st_historyServices s !! historyType).
Qed.

Lemma pushAll_quiet this fetched l s :
  st_onGet (final (pushAll this fetched l) s) = st_onGet s ∧
  st_onSet (final (pushAll this fetched l) s) = st_onSet s ∧
  forallb isPollEvent (events (pushAll this fetched l) s) = true.
Proof.
  revert s. induction l as [|[key value] l IH]; intros s; [done|].
  destruct (pushValue_run this key (default Js.Undefined (fetched !! key))
              value s) as (s1 & evs1 & Hmap & Hrun & _).
  destruct (callGetMap_quiet this (gv_map value)
              (default Js.Undefined (fetched !! key)) s) as (Hg & Hs & Hevs).
  unfold final, events in Hg, Hs, Hevs. rewrite Hmap in Hg, Hs, Hevs.
  simpl in Hg, Hs, Hevs.
  destruct (IH s1) as (Hg' & Hs' & Hevs').
  unfold final, events, pushAll in *. simpl.
  rewrite (bind_normal _ _ _ _ _ _ Hrun). simpl.
  rewrite !forallb_app, Hevs, Hevs'. simpl.
  split_and!; [congruence|congruence|done].
Qed.

Lemma poll_events_not_serious evs :
  forallb isPollEvent evs = true → seriousLogs evs = [].
Proof.
  induction evs as [|ev evs IH]; [done|]. simpl. intros [Hev Hevs]%andb_prop.
  unfold seriousLogs in *. simpl.
  destruct ev as [| | | | | | | | | | | | | | | | |[]]; try discriminate Hev;
    by apply IH.
Qed.

(** X11.  A poll, whether its fetch succeeds or fails, leaves the index,
    the accessory's services and the responders installed on the
    characteristics as they are. *)
Theorem poll_leaves_registration (this : BaseHumidifier) (s : State) :
  st_props (final (update this) s) = st_props s ∧
  st_services (final (update this) s) = st_services s ∧
  st_onGet (final (update this) s) = st_onGet s ∧
  st_onSet (final (update this) s) = st_onSet s.
Proof.
  destruct (protocol_getProps (protocol this) (map ge_key (st_props s)))
    as [fetched|err] eqn:Hfetch.
  - destruct (update_success_run this s fetched Hfetch)
      as (s' & evs & Hloop & Hrun).
    destruct (pushAll_run this fetched (bindings (st_props s))
                (set_cache fetched s))
      as (s1 & evs1 & Hloop' & Hp & _ & Hs & _).
    destruct (pushAll_quiet this fetched (bindings (st_props s))
                (set_cache fetched s)) as (Hg & Ho & _).
    unfold final in *. rewrite Hloop in Hloop', Hg, Ho.
    injection Hloop' as <- <-. rewrite Hrun. done.
  - unfold final. by rewrite (update_failure_run this s err Hfetch).
Qed.

(** X12.  The log of a poll above debug level: nothing when the fetch
    succeeds; when it throws, one error line with the error, followed by the
    invalid-token warning exactly when the error is a [ProtocolError]. *)
Theorem poll_log (this : BaseHumidifier) (s : State) :
  seriousLogs (events (update this) s)
  = match protocol_getProps (protocol this) (map ge_key (st_props s)) with
    | Js.Normal _ => []
    | Js.Throw err =>
        EvLog LogError (MsgFailGet err)
          :: (if Js.err_protocol err then [EvLog Warn MsgInvalidToken] else [])
    end.
Proof.
  destruct (protocol_getProps (protocol this) (map ge_key (st_props s)))
    as [fetched|err] eqn:Hfetch.
  - destruct (update_success_run this s fetched Hfetch)
      as (s' & evs & Hloop & Hrun).
    destruct (pushAll_quiet this fetched (bindings (st_props s))
                (set_cache fetched s)) as (_ & _ & Hevs).
    unfold events in *. rewrite Hloop in Hevs. rewrite Hrun. simpl in *.
    unfold seriousLogs. simpl. by apply poll_events_not_serious.
  - unfold events. rewrite (update_failure_run this s err Hfetch). simpl.
    by destruct (Js.err_protocol err).
Qed.

Example poll_log_bad_token :
  let this := Sample.engine Cases.refusing [Sample.active] in
  seriousLogs (events (update this)
                 (Sample.configured Cases.refusing [Sample.active] []))
  = [EvLog LogError (MsgFailGet Cases.badToken); EvLog Warn MsgInvalidToken].
Proof. vm_compute. reflexivity. Qed.

(** ** History across polls *)

Lemma callGetMap_keeps_unrecorded this map it s type field :
  recordsField type field map && Js.truthy (readTransform map it) = false →
  field ≠ "time" →
  entryField (final (callGetMap this map it) s) type field
  = entryField s type field.
Proof.
  intros [Hother|Hfalsy]%andb_false_iff Htime.
  - by apply callGetMap_keeps_field.
  - unfold final. destruct map as [f|oldMap historyType historyKey]; simpl in *;
      [done|]. by rewrite Hfalsy.
Qed.

Lemma pushAll_keeps_unrecorded this fetched l s type field :
  Forall (λ binding, recordsNow type field fetched binding = false) l →
  field ≠ "time" →
  entryField (final (pushAll this fetched l) s) type field
  = entryField s type field.
Proof.
  revert s. induction l as [|binding l IH]; intros s Hall Htime; [done|].
  apply Forall_cons in Hall as [Hbinding Hall].
  rewrite pushAll_cons_final, IH by done.
  by apply callGetMap_keeps_unrecorded.
Qed.

(** X13.  The open entry of a channel is carried from poll to poll: a field
    other than ["time"] keeps its value through a poll in which no binding
    tagged with that channel and field has a truthy result, whatever else
    the poll records into the entry. *)
Theorem history_field_outlives_poll
    (this : BaseHumidifier) (s : State) (fetched : PropsType)
    (type field : string) :
  protocol_getProps (protocol this) (map ge_key (st_props s))
  = Js.Normal fetched →
  Forall (λ binding, recordsNow type field fetched binding = false)
         (bindings (st_props s)) →
  field ≠ "time" →
  entryField (final (update this) s) type field = entryField s type field.
Proof.
  intros Hfetch Hall Htime.
  destruct (update_success_run this s fetched Hfetch)
    as (s' & evs & Hloop & Hrun).
  assert (final (update this) s
          = final (pushAll this fetched (bindings (st_props s)))
              (set_cache fetched s)) as ->.
  { unfold final. by rewrite Hrun, Hloop. }
  by rewrite pushAll_keeps_unrecorded.
Qed.

Lemma history_field_outlives_poll_witness :
  let table := [Sample.roomTemperature; Sample.roomHumidity] in
  let first :=
    final (update (Sample.engine Sample.climate table))
      (Sample.configured Sample.climate table []) in
  let this := Sample.engine Cases.dry table in
  entryField first "room" "humidity" = Some (Js.Num 55) ∧
  st_cache (final (update this) first) !! "humidity" = Some (Js.Num 0) ∧
  entryField (final (update this) first) "room" "humidity"
  = Some (Js.Num 55).
Proof.
  split; [vm_compute; reflexivity|]. split; [vm_compute; reflexivity|].
  etrans;
    [refine (history_field_outlives_poll
               (Sample.engine Cases.dry
                  [Sample.roomTemperature; Sample.roomHumidity])
               (final (update (Sample.engine Sample.climate
                                 [Sample.roomTemperature; Sample.roomHumidity]))
                  (Sample.configured Sample.climate
                     [Sample.roomTemperature; Sample.roomHumidity] []))
               {[ "temp" := Js.Num 21; "humidity" := Js.Num 0 ]}
               "room" "humidity" _ _ _)|].
  - vm_compute; reflexivity.
  - vm_compute. by repeat constructor.
  - done.
  - vm_compute; reflexivity.
Defined.

(** ** More on writes *)

(** X14.  A write in which nothing throws and [beforeSet] does not ask to
    skip makes its calls once each and in this order: [beforeSet] (if
    defined), the device's [setProp] with the key, the call name and the
    mapped value, [afterSet] (if defined) with the requested and the mapped
    value, and last the callback, without error. *)
Theorem write_runs_in_order
    (this : BaseHumidifier) (entry : SetEntry) (value : Js.Value) (s : State)
    (skipSet mappedValue : Js.Value) :
  beforeSetOutcome this entry value = Js.Normal skipSet →
  skipSet ≠ Js.Bool true →
  se_map entry value = Js.Normal mappedValue →
  protocol_setProp (protocol this) (se_key entry) (se_call entry) mappedValue
  = Js.Normal () →
  afterSetOutcome this entry value mappedValue = Js.Normal () →
  events (setProp this entry value) s
  = EvLog Debug (MsgSetting (se_key entry) value)
    :: match se_beforeSet entry with
       | Some _ => [EvBeforeSet value (se_characteristic entry)]
       | None => []
       end
    ++ EvSetProp (se_key entry) (se_call entry) mappedValue
    :: match se_afterSet entry with
       | Some _ => [EvAfterSet value mappedValue (se_characteristic entry)]
       | None => []
       end
    ++ [EvSetCallback None].
Proof.
  unfold beforeSetOutcome, afterSetOutcome. run_write.
  destruct (se_beforeSet entry) as [beforeSet|]; simpl;
    intros Hbefore Hskip Hmap Hdevice Hafter.
  - rewrite Hbefore. simpl. rewrite Hmap. simpl.
    rewrite bool_decide_eq_false_2 by done. simpl. rewrite Hdevice. simpl.
    destruct (se_afterSet entry) as [afterSet|]; simpl; [|done].
    by rewrite Hafter.
  - rewrite Hmap. simpl. rewrite Hdevice. simpl.
    destruct (se_afterSet entry) as [afterSet|]; simpl; [|done].
    by rewrite Hafter.
Qed.

Lemma write_runs_in_order_witness :
  let this := Sample.engine (Sample.steady (Js.Num 1)) [] in
  events (setProp this Cases.hookedEntry (Js.Num 5)) (constructed [])
  = [EvLog Debug (MsgSetting "limit_hum" (Js.Num 5));
     EvBeforeSet (Js.Num 5) ("HumidifierDehumidifier", "TargetHumidity");
     EvSetProp "limit_hum" "set_limit_hum" (Js.Num 50);
     EvAfterSet (Js.Num 5) (Js.Num 50)
       ("HumidifierDehumidifier", "TargetHumidity");
     EvSetCallback None].
Proof.
  refine (write_runs_in_order
            (Sample.engine (Sample.steady (Js.Num 1)) [])
            Cases.hookedEntry (Js.Num 5) (constructed [])
            (Js.Num 1) (Js.Num 50) eq_refl _ eq_refl eq_refl eq_refl).
  discriminate.
Defined.

(** X15.  Only [true] itself skips the device call: when [beforeSet] is
    absent or returns anything else, truthy or not, and the write transform
    returns, the device's [setProp] is called exactly once, with the mapped
    value, whatever it then answers. *)
Theorem device_called_unless_skip_is_true
    (this : BaseHumidifier) (entry : SetEntry) (value : Js.Value) (s : State)
    (skipSet mappedValue : Js.Value) :
  beforeSetOutcome this entry value = Js.Normal skipSet →
  skipSet ≠ Js.Bool true →
  se_map entry value = Js.Normal mappedValue →
  setPropCalls (events (setProp this entry value) s)
  = [(se_key entry, se_call entry, mappedValue)].
Proof.
  unfold beforeSetOutcome. run_write.
  destruct (se_beforeSet entry) as [beforeSet|]; simpl;
    intros Hbefore Hskip Hmap.
  - rewrite Hbefore. simpl. rewrite Hmap. simpl.
    rewrite bool_decide_eq_false_2 by done. simpl.
    destruct (protocol_setProp _ _ _ _); simpl; [|done].
    destruct (se_afterSet entry) as [afterSet|]; simpl; [|done].
    by destruct (afterSet _).
  - rewrite Hmap. simpl.
    destruct (protocol_setProp _ _ _ _); simpl; [|done].
    destruct (se_afterSet entry) as [afterSet|]; simpl; [|done].
    by destruct (afterSet _).
Qed.

Lemma device_called_unless_skip_is_true_witness :
  let this := Sample.engine Sample.unreachable [] in
  Js.truthy (Js.Num 1) = true ∧
  beforeSetOutcome this Cases.hookedEntry (Js.Num 5) = Js.Normal (Js.Num 1) ∧
  setPropCalls (events (setProp this Cases.hookedEntry (Js.Num 5))
                  (constructed []))
  = [("limit_hum", "set_limit_hum", Js.Num 50)].
Proof.
  split; [reflexivity|]. split; [reflexivity|].
  refine (device_called_unless_skip_is_true
            (Sample.engine Sample.unreachable [])
            Cases.hookedEntry (Js.Num 5) (constructed [])
            (Js.Num 1) (Js.Num 50) eq_refl _ eq_refl).
  discriminate.
Defined.

(** X16.  A row with a write path but no [set.map] and no [beforeSet] gets
    a set responder that sends the written value itself: registering the
    row appends one set entry to the responders, with the row's key and
    call name, and a write of any value through that entry calls the
    device's [setProp] once with that key, call name and value. *)
Theorem registered_write_sends_value
    (this : BaseHumidifier) (config : CharacteristicConfig) (s : State)
    (key : string) (get_map : option (Js.Value → Js.Value)) (set : SetConfig) :
  cfg_variant config = Dynamic key get_map (Some set) →
  set_map set = None →
  set_beforeSet set = None →
  result (register this config) s = Js.Normal () →
  ∃ characteristic entry,
    st_onSet (final (register this config) s)
    = st_onSet s ++ [(characteristic, entry)] ∧
    se_key entry = key ∧ se_call entry = set_call set ∧
    ∀ value s',
      setPropCalls (events (setProp this entry value) s')
      = [(key, set_call set, value)].
Proof.
  intros Hvariant Hmap Hbefore.
  assert (Hwrite : ∀ characteristic value s',
    setPropCalls
      (events (setProp this
                 (mkSetEntry key characteristic (set_call set)
                    (default (λ it, Js.Normal it) (set_map set))
                    (set_beforeSet set) (set_afterSet set)) value) s')
    = [(key, set_call set, value)]).
  { intros characteristic value s'. rewrite Hmap, Hbefore. run_write.
    destruct (protocol_setProp _ _ _ _); simpl; [|done].
    destruct (set_afterSet set) as [afterSet|]; simpl; [|done].
    by destruct (afterSet _). }
  revert Hwrite. clear Hmap Hbefore.
  unfold result, final, register, getService, addService, getCharacteristic.
  rewrite Hvariant. run_m. intros Hwrite.
  repeat (case_match; simpl in *; simplify_eq); intros; simplify_eq;
    eexists _, _; split_and!; try done; apply Hwrite.
Qed.

Lemma registered_write_sends_value_witness :
  let this := Sample.engine Sample.unreachable [Cases.switch] in
  result (register this Cases.switch) (constructed []) = Js.Normal () ∧
  ∃ characteristic entry,
    st_onSet (final (register this Cases.switch) (constructed []))
    = [(characteristic, entry)] ∧
    se_key entry = "led" ∧ se_call entry = "set_led" ∧
    ∀ value s',
      setPropCalls (events (setProp this entry value) s')
      = [("led", "set_led", value)].
Proof.
  split; [reflexivity|].
  exact (registered_write_sends_value
           (Sample.engine Sample.unreachable [Cases.switch])
           Cases.switch (constructed [])
           "led" None (mkSetConfig "set_led" None None None)
           eq_refl eq_refl eq_refl eq_refl).
Defined.

(** ** The integer reading of a number *)

Lemma digits_step c k s acc :
  Js.digit_of 10 c = Some k →
  Js.digits 10 (String c s) acc = Js.digits 10 s (Some (10 * default 0 acc + k)).
Proof. intros Hdigit. cbn [Js.digits]. by rewrite Hdigit. Qed.

Lemma digits_decimal d acc :
  Js.digits 10 (NilEmpty.string_of_uint d) acc
  = match d with
    | Decimal.Nil => acc
    | _ => Some (decimalValue d (default 0 acc))
    end.
Proof.
  revert acc.
  induction d as [|d IH|d IH|d IH|d IH|d IH|d IH|d IH|d IH|d IH|d IH];
    intros acc; [done|..];
    cbn [NilEmpty.string_of_uint decimalValue];
    (erewrite digits_step by reflexivity); rewrite IH; simpl default;
    rewrite ?Z.add_0_r; by destruct d.
Qed.

Lemma decimalValue_acc d p :
  decimalValue d (Z.pos p) = Z.pos (Pos.of_uint_acc d p).
Proof.
  revert p.
  induction d as [|d IH|d IH|d IH|d IH|d IH|d IH|d IH|d IH|d IH|d IH];
    intros p; [done|..]; cbn [decimalValue Pos.of_uint_acc];
    rewrite <- IH; f_equal; lia.
Qed.

Lemma decimalValue_of_uint d : decimalValue d 0 = Z.of_N (Pos.of_uint d).
Proof.
  induction d as [|d IH|d IH|d IH|d IH|d IH|d IH|d IH|d IH|d IH|d IH];
    [done|exact IH|..]; cbn [decimalValue Pos.of_uint Z.of_N];
    by rewrite <- decimalValue_acc.
Qed.

Lemma decimalValue_to_uint p : decimalValue (Pos.to_uint p) 0 = Z.pos p.
Proof. by rewrite decimalValue_of_uint, DecimalPos.Unsigned.of_to. Qed.

Lemma is_white_digit c : is_Some (Js.digit_of 10 c) → Js.is_white c = false.
Proof.
  destruct c as [[] [] [] [] [] [] [] []]; vm_compute;
    first [reflexivity | by intros [? ?]].
Qed.

(** [parseInt] on a blank, an optional minus sign and decimal digits. *)
Lemma parseInt_decimal d :
  d ≠ Decimal.Nil →
  Js.parseInt (" " +:+ NilEmpty.string_of_uint d)
  = Js.Num (decimalValue d 0) ∧
  Js.parseInt (" " +:+ String "-" (NilEmpty.string_of_uint d))
  = Js.Num (- decimalValue d 0).
Proof.
  intros Hd.
  pose proof (digits_decimal d None) as Hdigits.
  change (" " +:+ ?s) with (String " " s).
  assert (Hspace : Js.is_white " " = true) by done.
  assert (Hminus : Js.is_white "-" = false) by done.
  destruct d as [|l|l|l|l|l|l|l|l|l|l]; [done|..];
    try (unfold Js.parseInt;
         cbn -[Js.digits Z.mul decimalValue Js.is_white] in Hdigits |- *;
         rewrite Hspace, ?Hminus, is_white_digit by (by eexists);
         cbn -[Js.digits Z.mul decimalValue] in Hdigits |- *;
         rewrite Hdigits; split; f_equal; lia).
  unfold Js.parseInt.
  destruct l as [|l|l|l|l|l|l|l|l|l|l];
    cbn -[Js.digits Z.mul decimalValue Js.is_white] in Hdigits |- *;
    rewrite Hspace, ?Hminus, is_white_digit by (by eexists);
    cbn -[Js.digits Z.mul decimalValue] in Hdigits |- *;
    rewrite Hdigits; split; f_equal; lia.
Qed.

Lemma string_of_uint_nonnil d :
  d ≠ Decimal.Nil → NilZero.string_of_uint d = NilEmpty.string_of_uint d.
Proof. by destruct d. Qed.

(** X17.  The value put under a history field for a number: an integer of
    magnitude below 10^21, which JavaScript prints in plain decimal digits,
    is recorded as that same integer ([parseInt] reads back what string
    conversion printed, the leading blank and a minus sign included). *)
Theorem integer_recorded_unchanged (n : Z) :
  Z.abs n < 10 ^ 21 →
  historyValue (Js.Num n) = Js.Num n.
Proof.
  intros _. unfold historyValue. simpl Js.toString.
  destruct n as [|p|p]; simpl Z.to_int; simpl NilZero.string_of_int.
  - reflexivity.
  - rewrite string_of_uint_nonnil by apply Unsigned.to_uint_nonnil.
    destruct (parseInt_decimal (Pos.to_uint p)) as [-> _];
      [apply Unsigned.to_uint_nonnil|].
    by rewrite decimalValue_to_uint.
  - rewrite string_of_uint_nonnil by apply Unsigned.to_uint_nonnil.
    destruct (parseInt_decimal (Pos.to_uint p)) as [_ ->];
      [apply Unsigned.to_uint_nonnil|].
    by rewrite decimalValue_to_uint.
Qed.

Lemma integer_recorded_unchanged_witness :
  Z.abs (-473) < 10 ^ 21 ∧ historyValue (Js.Num (-473)) = Js.Num (-473).
Proof.
  split; [reflexivity|]. by apply (integer_recorded_unchanged (-473)).
Defined.

(** ** Rows without a name *)





(** ** Polling again *)

(** X19.  Polling twice in a row, with the device giving the same answer,
    pushes the same values to the same characteristics the second time as
    the first, and leaves the same cache. *)
Theorem repeated_poll_pushes_again
    (this : BaseHumidifier) (s : State) (fetched : PropsType) :
  protocol_getProps (protocol this) (map ge_key (st_props s))
  = Js.Normal fetched →
  pushes (events (update this) (final (update this) s))
  = pushes (events (update this) s) ∧
  st_cache (final (update this) (final (update this) s))
  = st_cache (final (update this) s).
Proof.
  intros Hfetch.
  destruct (update_success_effects this s fetched Hfetch) as [Hcache Hpush].
  assert (st_props (final (update this) s) = st_props s) as Hprops.
  { destruct (update_success_run this s fetched Hfetch)
      as (s' & evs & Hloop & Hrun).
    destruct (pushAll_run this fetched (bindings (st_props s))
                (set_cache fetched s)) as (s1 & evs1 & Hloop' & Hp & _).
    rewrite Hloop in Hloop'. injection Hloop' as <- <-.
    unfold final. by rewrite Hrun. }
  destruct (update_success_effects this (final (update this) s) fetched)
    as [Hcache' Hpush']; [by rewrite Hprops|].
  split; [by rewrite Hpush', Hpush, Hprops|congruence].
Qed.

Lemma repeated_poll_pushes_again_witness :
  let table := [Sample.roomTemperature; Sample.roomHumidity] in
  let this := Sample.engine Sample.climate table in
  let s := Sample.configured Sample.climate table [] in
  pushes (events (update this) s)
  = [(("TemperatureSensor", "CurrentTemperature"), Js.Num 21);
     (("HumiditySensor", "CurrentRelativeHumidity"), Js.Num 55)] ∧
  pushes (events (update this) (final (update this) s))
  = pushes (events (update this) s).
Proof.
  split; [vm_compute; reflexivity|].
  refine (proj1 (repeated_poll_pushes_again
                   (Sample.engine Sample.climate
                      [Sample.roomTemperature; Sample.roomHumidity])
                   (Sample.configured Sample.climate
                      [Sample.roomTemperature; Sample.roomHumidity] [])
                   {[ "temp" := Js.Num 21; "humidity" := Js.Num 55 ]} _)).
  vm_compute; reflexivity.
Defined.
